(** * ee-logs: a ring of records in EEPROM

    Shallow embedding of [ee-logs.h] (the functions generated by the
    [LOGGER] macro) and the properties of the recovery scan, the cursor
    traversal and the non-blocking writer.

    C data is modelled as the code has it: [unsigned char] values are
    integers reduced modulo 256 at every assignment, [unsigned int]
    addresses are reduced modulo [2 ^ uint_bits]; the EEPROM is an
    address-indexed store together with the trace of the accesses issued
    to it; RAM buffers reached through a pointer are offset-indexed
    stores.  The three [do ... while] loops are run with fuel and return
    [None] when it runs out. *)

From Stdlib Require Import ZArith List Lia Bool.
Import ListNotations.
Local Open Scope Z_scope.

(** ** C integers *)

(** Conversion to [unsigned char]. *)
Definition u8 (x : Z) : Z := x mod 256.

(** [#define LOG_FLAG_MASK ((unsigned char)0x80)] *)
Definition LOG_FLAG_MASK : Z := 128.

(** [(unsigned char)~LOG_FLAG_MASK] *)
Definition LOG_PAYLOAD_MASK : Z := u8 (Z.lnot LOG_FLAG_MASK).

(** The arguments of one [LOGGER( name, recs, rec_size, start_addr )]
    instantiation, and the width of [unsigned int] on the target (16 on
    the AVR parts the header was written for). *)
Record logger : Type := {
  recs : Z;
  rec_size : Z;
  start_addr : Z;
  uint_bits : Z
}.

(** ** RAM buffers and the EEPROM *)

(** The memory reached from a pointer, by offset. *)
Definition buffer : Type := Z -> Z.

Definition poke (b : buffer) (k v : Z) : buffer :=
  fun j => if j =? k then v else b j.

(** [from; from + 1; ...], [n] values. *)
Fixpoint zrange (from : Z) (n : nat) : list Z :=
  match n with
  | O => []
  | S n => from :: zrange (from + 1) n
  end.

(** The first [n] cells of a buffer, as a list. *)
Definition snapshot (n : Z) (b : buffer) : list Z :=
  map b (zrange 0 (Z.to_nat n)).

(** A buffer holding the given bytes (zero beyond them). *)
Definition buffer_of (l : list Z) : buffer :=
  fun k => if k <? 0 then 0 else nth (Z.to_nat k) l 0.

Inductive ee_event : Type :=
| EE_read (a : Z)
| EE_write (a b : Z).

(** The medium: its cells and the accesses issued so far, newest first. *)
Record eeprom : Type := {
  ee_cells : Z -> Z;
  ee_trace : list ee_event
}.

(** [unsigned char ReadEE( void * ADDR )] *)
Definition ReadEE (e : eeprom) (a : Z) : Z * eeprom :=
  (u8 (ee_cells e a),
   {| ee_cells := ee_cells e; ee_trace := EE_read a :: ee_trace e |}).

(** [void WriteEE( void * ADDR, unsigned char BT )].  The byte is taken as
    stored when the write is issued. *)
Definition WriteEE (e : eeprom) (a b : Z) : eeprom :=
  {| ee_cells := poke (ee_cells e) a (u8 b);
     ee_trace := EE_write a (u8 b) :: ee_trace e |}.

(** [Log_ReadFlag( addr )]: [LOG_FLAG_MASK & ReadEE( addr )]. *)
Definition Log_ReadFlag (e : eeprom) (a : Z) : Z * eeprom :=
  let '(b, e) := ReadEE e a in (Z.land LOG_FLAG_MASK b, e).

Definition is_read (ev : ee_event) : bool :=
  match ev with EE_read _ => true | EE_write _ _ => false end.

Definition event_addr (ev : ee_event) : Z :=
  match ev with EE_read a => a | EE_write a _ => a end.

(** Addresses read, oldest first. *)
Definition reads_of (t : list ee_event) : list Z :=
  rev (map event_addr (filter is_read t)).

(** ** The variables of one log *)

Record log_state : Type := {
  Log_RecBuf : buffer;        (* static unsigned char Log_RecBuf__[rec_size] *)
  Log_CurRec : Z;             (* static unsigned char Log_CurRec__ *)
  Log_CurFlag : Z;            (* static unsigned char Log_CurFlag__ *)
  Log_CurReadRec : Z;         (* unsigned char Log_CurReadRec__ *)
  wr_a : Z;                   (* static unsigned int a, in Log_NoblockingWrite *)
  wr_i : Z                    (* static unsigned char i, in Log_NoblockingWrite *)
}.

Definition set_RecBuf (st : log_state) (b : buffer) : log_state :=
  {| Log_RecBuf := b; Log_CurRec := Log_CurRec st;
     Log_CurFlag := Log_CurFlag st; Log_CurReadRec := Log_CurReadRec st;
     wr_a := wr_a st; wr_i := wr_i st |}.

Definition set_CurRec (st : log_state) (r : Z) : log_state :=
  {| Log_RecBuf := Log_RecBuf st; Log_CurRec := r;
     Log_CurFlag := Log_CurFlag st; Log_CurReadRec := Log_CurReadRec st;
     wr_a := wr_a st; wr_i := wr_i st |}.

Definition set_CurFlag (st : log_state) (f : Z) : log_state :=
  {| Log_RecBuf := Log_RecBuf st; Log_CurRec := Log_CurRec st;
     Log_CurFlag := f; Log_CurReadRec := Log_CurReadRec st;
     wr_a := wr_a st; wr_i := wr_i st |}.

Definition set_CurReadRec (st : log_state) (r : Z) : log_state :=
  {| Log_RecBuf := Log_RecBuf st; Log_CurRec := Log_CurRec st;
     Log_CurFlag := Log_CurFlag st; Log_CurReadRec := r;
     wr_a := wr_a st; wr_i := wr_i st |}.

Definition set_wr (st : log_state) (a i : Z) : log_state :=
  {| Log_RecBuf := Log_RecBuf st; Log_CurRec := Log_CurRec st;
     Log_CurFlag := Log_CurFlag st; Log_CurReadRec := Log_CurReadRec st;
     wr_a := a; wr_i := i |}.

(** The variables at program start: statics are zero. *)
Definition boot_state : log_state :=
  {| Log_RecBuf := fun _ => 0; Log_CurRec := 0; Log_CurFlag := 0;
     Log_CurReadRec := 0; wr_a := 0; wr_i := 0 |}.

(** The iteration bound handed to the loops: a [do ... while] over an
    [unsigned char] counter that ends at all ends within 256 rounds. *)
Definition loop_fuel : nat := 256.

Section Logger.

Variable L : logger.

(** Conversion to [unsigned int]. *)
Definition uint (x : Z) : Z := x mod 2 ^ uint_bits L.

(** Address of byte [k] of slot [r]. *)
Definition slot_addr (r k : Z) : Z :=
  uint (start_addr L + r * rec_size L + k).

(** [if ( r -= (recs)-1 ) r += (recs);]: the successor of [r] in the ring. *)
Definition ring_succ (r : Z) : Z :=
  let r := u8 (r - (recs L - 1)) in
  if r =? 0 then r else u8 (r + recs L).

(** [if ( r ) -- r; else r = (recs) - 1;]: the predecessor of [r]. *)
Definition ring_pred (r : Z) : Z :=
  if r =? 0 then u8 (recs L - 1) else u8 (r - 1).

(** *** Log_ReadRec__ *)

(** [do { *dst++ = ReadEE( a ); ++a; } while ( --i );] with [dst] at
    offset [k] of its buffer. *)
Fixpoint ReadRec_loop (fuel : nat) (e : eeprom) (dst : buffer) (k a i : Z)
  : option (eeprom * buffer * Z * Z) :=
  match fuel with
  | O => None
  | S fuel =>
      let '(b, e) := ReadEE e a in
      let dst := poke dst k b in
      let k := k + 1 in
      let a := uint (a + 1) in
      let i := u8 (i - 1) in
      if i =? 0 then Some (e, dst, k, a)
      else ReadRec_loop fuel e dst k a i
  end.

Definition ReadRec (e : eeprom) (dst : buffer) (r : Z)
  : option (eeprom * buffer) :=
  let i := u8 (rec_size L - 1) in
  let a := uint (uint (start_addr L) + r * rec_size L) in
  match ReadRec_loop loop_fuel e dst 0 a i with
  | None => None
  | Some (e, dst, k, a) =>
      let '(b, e) := ReadEE e a in
      Some (e, poke dst k (Z.land LOG_PAYLOAD_MASK b))
  end.

(** *** Log_InitLog *)

Inductive scan_exit : Type :=
| Scan_return (st : log_state)      (* the [return] inside the loop *)
| Scan_end.                         (* the loop condition failed *)

(** The [do ... while ( cr < (recs) )] of [Log_InitLog]. *)
Fixpoint InitLog_loop (fuel : nat) (e : eeprom) (st : log_state) (a f cr : Z)
  : option (eeprom * scan_exit) :=
  match fuel with
  | O => None
  | S fuel =>
      let a := uint (a + rec_size L) in
      let '(g, e) := Log_ReadFlag e a in
      if negb (u8 (Z.lxor f g) =? 0) then
        let st := set_CurRec st cr in
        let cr := ring_succ cr in
        Some (e, Scan_return (set_CurReadRec st cr))
      else
        let cr := u8 (cr + 1) in
        if cr <? recs L then InitLog_loop fuel e st a f cr
        else Some (e, Scan_end)
  end.

Definition InitLog (e : eeprom) (st : log_state)
  : option (eeprom * log_state) :=
  let a := uint (uint (start_addr L) + rec_size L) in
  let '(f, e) := Log_ReadFlag e a in
  let cr := 1 in
  let st := set_CurFlag st f in
  match InitLog_loop loop_fuel e st a f cr with
  | None => None
  | Some (e, Scan_return st) => Some (e, st)
  | Some (e, Scan_end) =>
      let st := set_CurRec st 0 in
      let st := set_CurReadRec st 1 in
      Some (e, set_CurFlag st (u8 (Z.lxor f LOG_FLAG_MASK)))
  end.

(** *** Cursor traversal *)

Definition ReadFirst (e : eeprom) (st : log_state) (dst : buffer)
  : option (eeprom * log_state * buffer) :=
  let r := Log_CurRec st in
  let r := ring_succ r in
  let st := set_CurReadRec st r in
  match ReadRec e dst r with
  | None => None
  | Some (e, dst) => Some (e, st, dst)
  end.

Definition ReadLast (e : eeprom) (st : log_state) (dst : buffer)
  : option (eeprom * log_state * buffer) :=
  let r := Log_CurRec st in
  let r := ring_pred r in
  let st := set_CurReadRec st r in
  match ReadRec e dst r with
  | None => None
  | Some (e, dst) => Some (e, st, dst)
  end.

Definition ReadNext (e : eeprom) (st : log_state) (dst : buffer)
  : option (Z * eeprom * log_state * buffer) :=
  let r := Log_CurReadRec st in
  let r := ring_succ r in
  if r =? Log_CurRec st then Some (0, e, st, dst)
  else
    let st := set_CurReadRec st r in
    match ReadRec e dst r with
    | None => None
    | Some (e, dst) => Some (1, e, st, dst)
    end.

Definition ReadPrev (e : eeprom) (st : log_state) (dst : buffer)
  : option (Z * eeprom * log_state * buffer) :=
  let r := Log_CurReadRec st in
  let r := ring_pred r in
  if r =? Log_CurRec st then Some (0, e, st, dst)
  else
    let st := set_CurReadRec st r in
    match ReadRec e dst r with
    | None => None
    | Some (e, dst) => Some (1, e, st, dst)
    end.

Definition ReadCur (e : eeprom) (st : log_state) (dst : buffer)
  : option (eeprom * log_state * buffer) :=
  match ReadRec e dst (Log_CurReadRec st) with
  | None => None
  | Some (e, dst) => Some (e, st, dst)
  end.

(** *** Log_NoblockingWrite *)

(** [do { *p++ = *src++ ; } while ( --i );] with [p] at offset [k] of
    [Log_RecBuf__] and [src] at offset [j] of the caller's record. *)
Fixpoint copy_loop (fuel : nat) (p : buffer) (k : Z) (src : buffer) (j i : Z)
  : option buffer :=
  match fuel with
  | O => None
  | S fuel =>
      let p := poke p k (u8 (src j)) in
      let k := k + 1 in
      let j := j + 1 in
      let i := u8 (i - 1) in
      if i =? 0 then Some p else copy_loop fuel p k src j i
  end.

(** From the label [test:] on. *)
Definition NoblockingWrite_test (e : eeprom) (st : log_state)
  (src : option buffer) : option (Z * eeprom * log_state) :=
  match src with
  | None => Some (1, e, st)
  | Some src =>
      let a := uint (uint (start_addr L) + rec_size L * Log_CurRec st) in
      let i := u8 (rec_size L - 1) in
      let e := WriteEE e a (u8 (src 0)) in
      let a := uint (a + 1) in
      let p := poke (Log_RecBuf st) 0 1 in
      match copy_loop loop_fuel p 1 src 1 i with
      | None => None
      | Some p =>
          let i := 1 in
          Some (1, e, set_wr (set_RecBuf st p) a i)
      end
  end.

(** [free] is what [isEEfree()] answers at this invocation. *)
Definition NoblockingWrite (free : bool) (e : eeprom) (st : log_state)
  (src : option buffer) : option (Z * eeprom * log_state) :=
  if negb free then Some (0, e, st)
  else if negb (wr_a st =? 0) then
    if wr_i st =? rec_size L then
      NoblockingWrite_test e (set_wr st 0 (wr_i st)) src
    else if wr_i st =? rec_size L - 1 then
      let r := Log_RecBuf st (wr_i st) in
      let r := u8 (Z.land r LOG_PAYLOAD_MASK) in
      let e := WriteEE e (wr_a st) (Z.lor (Log_CurFlag st) r) in
      let r := Log_CurRec st in
      let r := u8 (r - (recs L - 1)) in
      let '(r, st) :=
        if negb (r =? 0) then (u8 (r + recs L), st)
        else (r, set_CurFlag st (u8 (Z.lxor (Log_CurFlag st) LOG_FLAG_MASK))) in
      let i := Log_CurReadRec st in
      let st :=
        if i =? r
        then set_CurReadRec st (if i =? recs L - 1 then 0 else u8 (i + 1))
        else st in
      let st := set_CurRec st r in
      let i := rec_size L in
      Some (0, e, set_wr st (wr_a st) (u8 i))
    else
      let e := WriteEE e (wr_a st) (Log_RecBuf st (wr_i st)) in
      Some (0, e, set_wr st (uint (wr_a st + 1)) (u8 (wr_i st + 1)))
  else NoblockingWrite_test e st src.

End Logger.

(** ** Well-formed loggers and log states *)

(** The header's requirement on the macro arguments:
    [2 <= REC_SIZE <= 255] and [2 <= RECS <= 255]. *)
Definition valid_logger (L : logger) : Prop :=
  2 <= recs L <= 255 /\ 2 <= rec_size L <= 255.

(** The [recs * rec_size] bytes from [start_addr] on lie in the address
    space of an [unsigned int]. *)
Definition region_fits (L : logger) : Prop :=
  0 <= start_addr L /\
  start_addr L + recs L * rec_size L <= 2 ^ uint_bits L.

(** Both cursors are slot indices. *)
Definition cursors_in_range (L : logger) (st : log_state) : Prop :=
  0 <= Log_CurRec st < recs L /\ 0 <= Log_CurReadRec st < recs L.

(** What a read operation leaves at the destination when it delivers slot
    [r]: the [rec_size] bytes of the slot with bit 7 of the last one
    cleared, and nothing else touched. *)
Definition delivers (L : logger) (e : eeprom) (r : Z) (dst dst' : buffer)
  : Prop :=
  (forall j, 0 <= j < rec_size L - 1 ->
             dst' j = u8 (ee_cells e (slot_addr L r j))) /\
  dst' (rec_size L - 1) =
    Z.land 127 (u8 (ee_cells e (slot_addr L r (rec_size L - 1)))) /\
  0 <= dst' (rec_size L - 1) < 128 /\
  (forall j, j < 0 \/ rec_size L <= j -> dst' j = dst j).

(** ** Callers *)

(** A run of invocations of [Log_NoblockingWrite], each with the answer of
    [isEEfree()] and the [SRC] argument; the values returned come oldest
    first. *)
Fixpoint run_calls (L : logger) (calls : list (bool * option buffer))
  (e : eeprom) (st : log_state) : option (list Z * eeprom * log_state) :=
  match calls with
  | [] => Some ([], e, st)
  | (free, src) :: calls =>
      match NoblockingWrite L free e st src with
      | None => None
      | Some (ret, e, st) =>
          match run_calls L calls e st with
          | None => None
          | Some (rets, e, st) => Some (ret :: rets, e, st)
          end
      end
  end.

(** The invocations that issue the first [n] bytes of the record at [src]
    when the medium is ready each time: one with [SRC], then [n - 1]
    with [SRC = 0]. *)
Definition issue_bytes (src : buffer) (n : nat) : list (bool * option buffer) :=
  (true, Some src) :: repeat (true, None) (n - 1).

(** One record handed over and polled until its last byte is issued. *)
Definition transfer (L : logger) (src : buffer) (e : eeprom) (st : log_state)
  : option (eeprom * log_state) :=
  match run_calls L (issue_bytes src (Z.to_nat (rec_size L))) e st with
  | None => None
  | Some (_, e, st) => Some (e, st)
  end.

(** Records written one after the other; the log variables after each
    transfer come oldest first. *)
Fixpoint transfers (L : logger) (srcs : list buffer) (e : eeprom)
  (st : log_state) : option (eeprom * list log_state) :=
  match srcs with
  | [] => Some (e, [])
  | src :: srcs =>
      match transfer L src e st with
      | None => None
      | Some (e, st) =>
          match transfers L srcs e st with
          | None => None
          | Some (e, sts) => Some (e, st :: sts)
          end
      end
  end.

(** How often a value changes along [f :: fs]. *)
Fixpoint flips (f : Z) (fs : list Z) : nat :=
  match fs with
  | [] => O
  | g :: fs => ((if Z.eqb g f then 0 else 1) + flips g fs)%nat
  end.

(** The slot indices other than the write cursor. *)
Definition readable (L : logger) (st : log_state) : list Z :=
  filter (fun r => negb (r =? Log_CurRec st)) (zrange 0 (Z.to_nat (recs L))).

(** [Log_ReadNext] repeated until it returns 0; the slot index and the
    record of every successful read come oldest first. *)
Fixpoint next_until_fail (L : logger) (fuel : nat) (e : eeprom)
  (st : log_state) (dst : buffer)
  : option (list (Z * list Z) * eeprom * log_state * buffer) :=
  match fuel with
  | O => None
  | S fuel =>
      match ReadNext L e st dst with
      | None => None
      | Some (ret, e, st, dst) =>
          if ret =? 0 then Some ([], e, st, dst)
          else
            match next_until_fail L fuel e st dst with
            | None => None
            | Some (l, e', st', dst') =>
                Some ((Log_CurReadRec st, snapshot (rec_size L) dst) :: l,
                      e', st', dst')
            end
      end
  end.

Fixpoint prev_until_fail (L : logger) (fuel : nat) (e : eeprom)
  (st : log_state) (dst : buffer)
  : option (list (Z * list Z) * eeprom * log_state * buffer) :=
  match fuel with
  | O => None
  | S fuel =>
      match ReadPrev L e st dst with
      | None => None
      | Some (ret, e, st, dst) =>
          if ret =? 0 then Some ([], e, st, dst)
          else
            match prev_until_fail L fuel e st dst with
            | None => None
            | Some (l, e', st', dst') =>
                Some ((Log_CurReadRec st, snapshot (rec_size L) dst) :: l,
                      e', st', dst')
            end
      end
  end.

(** [Log_ReadFirst], then [Log_ReadNext] until it fails. *)
Definition read_forward (L : logger) (e : eeprom) (st : log_state)
  (dst : buffer) : option (list (Z * list Z)) :=
  match ReadFirst L e st dst with
  | None => None
  | Some (e, st, dst) =>
      match next_until_fail L loop_fuel e st dst with
      | None => None
      | Some (l, _, _, _) =>
          Some ((Log_CurReadRec st, snapshot (rec_size L) dst) :: l)
      end
  end.

(** [Log_ReadLast], then [Log_ReadPrev] until it fails. *)
Definition read_backward (L : logger) (e : eeprom) (st : log_state)
  (dst : buffer) : option (list (Z * list Z)) :=
  match ReadLast L e st dst with
  | None => None
  | Some (e, st, dst) =>
      match prev_until_fail L loop_fuel e st dst with
      | None => None
      | Some (l, _, _, _) =>
          Some ((Log_CurReadRec st, snapshot (rec_size L) dst) :: l)
      end
  end.

(** Power loss and restart: the medium keeps its cells, the variables
    start from zero and [Log_Init] runs. *)
Definition restart (L : logger) (e : eeprom) : option (eeprom * log_state) :=
  InitLog L e boot_state.

(** The writer is not in the middle of a record: idle ([a == 0]) or done
    with the last byte ([i == rec_size]). *)
Definition at_rest (L : logger) (st : log_state) : Prop :=
  wr_a st = 0 \/ wr_i st = rec_size L.

(** A log state as the data model has it: cursors in range, the flag
    variable one of the two flag values, no record in transfer. *)
Definition consistent (L : logger) (st : log_state) : Prop :=
  cursors_in_range L st /\
  (Log_CurFlag st = 0 \/ Log_CurFlag st = LOG_FLAG_MASK) /\
  at_rest L st.

(** The flag bit of slot [r] on the medium: bit 7 of its last byte. *)
Definition slot_flag (L : logger) (e : eeprom) (r : Z) : Z :=
  Z.land LOG_FLAG_MASK (u8 (ee_cells e (slot_addr L r (rec_size L - 1)))).

(** Address [a] lies in the log's region. *)
Definition in_region (L : logger) (a : Z) : bool :=
  (start_addr L <=? a) && (a <? start_addr L + recs L * rec_size L).

(** Address [a] is the last byte of one of the slots. *)
Definition is_flag_addr (L : logger) (a : Z) : bool :=
  existsb (fun r => a =? slot_addr L r (rec_size L - 1))
          (zrange 0 (Z.to_nat (recs L))).

(** ** Concrete loggers and media *)

(** [LOGGER( demo, 4, 3, 16 )] on a 16-bit target. *)
Definition demo : logger :=
  {| recs := 4; rec_size := 3; start_addr := 16; uint_bits := 16 |}.

(** [LOGGER( small, 3, 2, 16 )] on a 16-bit target. *)
Definition small : logger :=
  {| recs := 3; rec_size := 2; start_addr := 16; uint_bits := 16 |}.

(** A medium whose every cell is zero, nothing issued yet. *)
Definition blank : eeprom := {| ee_cells := fun _ => 0; ee_trace := [] |}.

(** A medium with the bytes [l] from address [base] on, zero elsewhere. *)
Definition medium_of (base : Z) (l : list Z) : eeprom :=
  {| ee_cells := fun a => buffer_of l (a - base); ee_trace := [] |}.

Definition zeros : buffer := fun _ => 0.

(** ** The writer's phases *)

(** A status probe: [SRC = 0] while no record is in transfer. *)
Definition is_probe (L : logger) (st : log_state) (src : option buffer)
  : bool :=
  match src with
  | None => (wr_a st =? 0) || (wr_i st =? rec_size L)
  | Some _ => false
  end.

(** The byte that ends up at offset [k] of the slot when the record at
    [src] is written under flag [f]. *)
Definition stored_byte (L : logger) (f : Z) (src : buffer) (k : Z) : Z :=
  if k =? rec_size L - 1
  then u8 (Z.lor f (u8 (Z.land (u8 (src k)) LOG_PAYLOAD_MASK)))
  else u8 (src k).

(** The medium writes for bytes [from .. from+n-1] of the record at [src]
    going to slot [w] under flag [f], oldest first. *)
Definition record_events (L : logger) (w f : Z) (src : buffer) (from : Z)
  (n : nat) : list ee_event :=
  map (fun k => EE_write (slot_addr L w k) (stored_byte L f src k))
      (zrange from n).

(** Byte [i] of the record at [src] is the next to go to slot [w]; [f]
    and [rd] are the flag variable and the read cursor. *)
Definition transferring (L : logger) (src : buffer) (w f rd i : Z)
  (st : log_state) : Prop :=
  wr_a st = slot_addr L w i /\ wr_i st = i /\
  Log_CurRec st = w /\ Log_CurFlag st = f /\ Log_CurReadRec st = rd /\
  forall k, i <= k < rec_size L -> Log_RecBuf st k = u8 (src k).

(** The variables once the last byte of a record for slot [w] has been
    issued. *)
Definition finished (L : logger) (w f rd : Z) (st : log_state) : Prop :=
  wr_a st = slot_addr L w (rec_size L - 1) /\ wr_i st = rec_size L /\
  Log_CurRec st = (if w =? recs L - 1 then 0 else w + 1) /\
  Log_CurFlag st =
    (if w =? recs L - 1 then u8 (Z.lxor f LOG_FLAG_MASK) else f) /\
  Log_CurReadRec st =
    (if rd =? (if w =? recs L - 1 then 0 else w + 1)
     then (if rd =? recs L - 1 then 0 else u8 (rd + 1))
     else rd).

(** ** The scenario with 4 slots of 3 bytes *)

Definition rec_A : list Z := [65; 65; 65].
Definition rec_B : list Z := [66; 66; 66].

(** Start-up on the all-zero medium, then [A], [A], [A], [B] written. *)
Definition scenario_written : option (eeprom * list log_state) :=
  match restart demo blank with
  | None => None
  | Some (e, st) =>
      transfers demo
        [buffer_of rec_A; buffer_of rec_A; buffer_of rec_A; buffer_of rec_B]
        e st
  end.

(** What a reading call hands back: the value returned (1 for the calls
    that return nothing), the read cursor and the destination. *)
Definition outcome : Type := (Z * Z * list Z)%type.

(** [n] calls of [Log_ReadNext] in a row, each one's outcome. *)
Fixpoint next_calls (L : logger) (n : nat) (e : eeprom) (st : log_state)
  (dst : buffer) : option (list outcome) :=
  match n with
  | O => Some []
  | S n =>
      match ReadNext L e st dst with
      | None => None
      | Some (ret, e, st, dst) =>
          match next_calls L n e st dst with
          | None => None
          | Some l =>
              Some ((ret, Log_CurReadRec st, snapshot (rec_size L) dst) :: l)
          end
      end
  end.

(** [Log_ReadFirst] and then [n] calls of [Log_ReadNext]. *)
Definition first_then_next (L : logger) (n : nat) (e : eeprom)
  (st : log_state) (dst : buffer) : option (list outcome) :=
  match ReadFirst L e st dst with
  | None => None
  | Some (e, st, dst) =>
      match next_calls L n e st dst with
      | None => None
      | Some l => Some ((1, Log_CurReadRec st, snapshot (rec_size L) dst) :: l)
      end
  end.

(** The scenario's reads: [Log_ReadFirst], then four [Log_ReadNext]. *)
Definition scenario_reads : option (list outcome) :=
  match scenario_written with
  | None => None
  | Some (e, sts) => first_then_next demo 4 e (last sts boot_state) zeros
  end.

(** The values returned and the records delivered, without the cursor. *)
Definition returned (l : list outcome) : list (Z * list Z) :=
  map (fun o => (fst (fst o), snd o)) l.

(** The write cursor and the flag variable of each state in a list. *)
Definition cursor_and_flag (sts : list log_state) : list (Z * Z) :=
  map (fun st => (Log_CurRec st, Log_CurFlag st)) sts.

(** The [n] cells of a medium from address [a] on. *)
Definition cells_from (e : eeprom) (a : Z) (n : nat) : list Z :=
  map (ee_cells e) (zrange a n).

(** ** What the scan of [Log_InitLog] looks at *)

(** The address of the [j]-th byte the scan reads, [j] counting from 1:
    [start_addr + j * rec_size]. *)
Definition scan_addr (L : logger) (j : Z) : Z :=
  uint L (start_addr L + j * rec_size L).

(** Bit 7 of that byte. *)
Definition scan_flag (L : logger) (e : eeprom) (j : Z) : Z :=
  Z.land LOG_FLAG_MASK (u8 (ee_cells e (scan_addr L j))).

(** The record held by slot [r] of the medium, decoded. *)
Definition slot_record (L : logger) (e : eeprom) (r : Z) : list Z :=
  map (fun k => if k =? rec_size L - 1
                then Z.land 127 (u8 (ee_cells e (slot_addr L r k)))
                else u8 (ee_cells e (slot_addr L r k)))
      (zrange 0 (Z.to_nat (rec_size L))).

(** ** Scenarios around a restart *)

Definition obind {A B : Type} (x : option A) (f : A -> option B) : option B :=
  match x with
  | None => None
  | Some a => f a
  end.

(** A medium as a first record, written from start-up on the all-zero
    medium, and an older record beginning with 0x80 leave it: slot 0 holds
    [00 80], slot 1 [00 00], slot 2 [80 00]. *)
Definition two_flags_medium : eeprom := medium_of 16 [0; 128; 0; 0; 128; 0].

(** Four records for the ring of 4 slots of 3 bytes, and a fifth. *)
Definition ring_records : list (list Z) :=
  [[1; 11; 21]; [2; 12; 22]; [131; 13; 23]; [4; 14; 24]].

Definition fifth_record : list Z := [5; 15; 25].

(** A ring in use: start-up on the all-zero medium and the four records
    written, which fills the ring once. *)
Definition ring_in_use : option (eeprom * log_state) :=
  obind (restart demo blank) (fun '(e, st) =>
  obind (transfers demo (map buffer_of ring_records) e st) (fun '(e, sts) =>
  Some (e, last sts st))).

(** The ring in use, the first [n] bytes of the fifth record issued, and
    then power is lost: the slot that was being written and the medium
    as it is left. *)
Definition interrupted_write (n : nat) : option (Z * eeprom) :=
  obind ring_in_use (fun '(e, st) =>
  obind (run_calls demo (issue_bytes (buffer_of fifth_record) n) e st)
        (fun '(_, e, st) => Some (Log_CurRec st, e))).

(** The variables after the restart that follows, and what a forward
    traversal then delivers. *)
Definition after_power_loss (n : nat)
  : option (log_state * list (Z * list Z)) :=
  obind (interrupted_write n) (fun '(_, e) =>
  obind (restart demo e) (fun '(e, st) =>
  obind (read_forward demo e st zeros) (fun l => Some (st, l)))).

(** The two traversals, forward and backward. *)
Definition traversals (L : logger) (e : eeprom) (st : log_state)
  : option (list (Z * list Z) * list (Z * list Z)) :=
  obind (read_forward L e st zeros) (fun f =>
  obind (read_backward L e st zeros) (fun b => Some (f, b))).

(** The ring in use scanned anew, the records [srcs] written, and then
    traversed. *)
Definition rescanned_then_written (srcs : list (list Z))
  : option (list (Z * list Z) * list (Z * list Z)) :=
  obind ring_in_use (fun '(e, _) =>
  obind (restart demo e) (fun '(e, st) =>
  obind (transfers demo (map buffer_of srcs) e st) (fun '(e, sts) =>
  traversals demo e (last sts st)))).

(** ** Records on the medium *)

(** The cells of [e'] are those of [e] with the bytes [from .. from+n-1]
    of slot [w] replaced by those of the record at [src] under flag [f]. *)
Definition slot_bytes_stored (L : logger) (w f : Z) (src : buffer) (from : Z)
  (n : nat) (e e' : eeprom) : Prop :=
  (forall k, from <= k < from + Z.of_nat n ->
             ee_cells e' (slot_addr L w k) = stored_byte L f src k) /\
  (forall a, (forall k, from <= k < from + Z.of_nat n ->
                        a <> slot_addr L w k) ->
             ee_cells e' a = ee_cells e a).

(** A record as the read operations hand it back: its [rec_size] bytes
    with bit 7 of the last one cleared. *)
Definition decoded (L : logger) (src : buffer) : list Z :=
  map (fun k => if k =? rec_size L - 1
                then Z.land 127 (u8 (src k))
                else u8 (src k))
      (zrange 0 (Z.to_nat (rec_size L))).

(** ** Frames and invariants of the operations *)

(** The variables the reading operations have no business with: the write
    cursor, the flag variable and the writer's own. *)
Definition keeps_writer_side (st st' : log_state) : Prop :=
  Log_CurRec st' = Log_CurRec st /\
  Log_CurFlag st' = Log_CurFlag st /\
  Log_RecBuf st' = Log_RecBuf st /\
  wr_a st' = wr_a st /\ wr_i st' = wr_i st.

(** The medium reads for the bytes of slot [r], oldest first. *)
Definition slot_reads (L : logger) (r : Z) : list ee_event :=
  map (fun k => EE_read (slot_addr L r k)) (zrange 0 (Z.to_nat (rec_size L))).

(** From [e] to [e'] the bytes of slot [r] have been read, in order, and
    nothing else has been issued. *)
Definition reads_slot (L : logger) (r : Z) (e e' : eeprom) : Prop :=
  ee_cells e' = ee_cells e /\
  ee_trace e' = rev (slot_reads L r) ++ ee_trace e.

(** Both cursors are slot indices and the read cursor is not on the slot
    that the next write overwrites. *)
Definition cursor_apart (L : logger) (st : log_state) : Prop :=
  cursors_in_range L st /\ Log_CurReadRec st <> Log_CurRec st.

(** The flag bytes on the medium as the writer leaves them: the slots
    before the write cursor carry the flag variable's value, the slots
    from the write cursor on the other value. *)
Definition ring_flags (L : logger) (e : eeprom) (st : log_state) : Prop :=
  forall x, 0 <= x < recs L ->
    slot_flag L e x =
      if x <? Log_CurRec st then Log_CurFlag st
      else Z.lxor (Log_CurFlag st) LOG_FLAG_MASK.

(** A run's outcome without the values returned. *)
Definition outcome_of (r : option (list Z * eeprom * log_state))
  : option (eeprom * log_state) :=
  match r with
  | None => None
  | Some (_, e, st) => Some (e, st)
  end.

(** [LOGGER( tiny, 4, 1, 16 )]: a record size below the documented
    minimum of 2. *)
Definition tiny : logger :=
  {| recs := 4; rec_size := 1; start_addr := 16; uint_bits := 16 |}.

(** From [e] to [e'] every access issued addresses a byte of the log's
    region. *)
Definition accesses_in_region (L : logger) (e e' : eeprom) : Prop :=
  exists evs,
    ee_trace e' = evs ++ ee_trace e /\
    Forall (fun ev => in_region L (event_addr ev) = true) evs.

(** ** Arithmetic of the two integer types *)

Lemma u8_small : forall x, 0 <= x < 256 -> u8 x = x.
Proof. intros x Hx. unfold u8. apply Z.mod_small. exact Hx. Qed.

Lemma u8_range : forall x, 0 <= u8 x < 256.
Proof. intros x. unfold u8. apply Z.mod_pos_bound. lia. Qed.

Lemma uint_add_l : forall L x y, uint L (uint L x + y) = uint L (x + y).
Proof. intros L x y. unfold uint. apply Zplus_mod_idemp_l. Qed.

Lemma payload_mask_value : LOG_PAYLOAD_MASK = 127.
Proof. reflexivity. Qed.

Lemma land_127_range : forall x, 0 <= Z.land 127 x < 128.
Proof.
  intros x. split.
  - apply Z.land_nonneg. left. lia.
  - destruct (Z.land 127 x) eqn:E; try lia.
    + assert (H : Z.land 127 x = Z.land 127 x mod 2 ^ 7).
      { change 127 with (Z.ones 7). rewrite Z.land_comm, Z.land_ones by lia.
        rewrite Z.mod_mod by lia. reflexivity. }
      rewrite E in H. rewrite H.
      apply Z.mod_pos_bound. reflexivity.
Qed.

Section RingSteps.

Variable L : logger.
Hypothesis HL : valid_logger L.

Lemma ring_succ_cases : forall r, 0 <= r < recs L ->
  ring_succ L r = if r =? recs L - 1 then 0 else r + 1.
Proof.
  intros r Hr. destruct HL as [HN _]. unfold ring_succ.
  destruct (Z.eqb_spec r (recs L - 1)) as [->|Hne].
  - replace (recs L - 1 - (recs L - 1)) with 0 by lia. reflexivity.
  - assert (E : u8 (r - (recs L - 1)) = r - (recs L - 1) + 256).
    { unfold u8. symmetry. apply Z.mod_unique with (q := -1); lia. }
    rewrite E.
    destruct (Z.eqb_spec (r - (recs L - 1) + 256) 0) as [H0|_]; [lia|].
    unfold u8. symmetry. apply Z.mod_unique with (q := 1); lia.
Qed.

Lemma ring_pred_cases : forall r, 0 <= r < recs L ->
  ring_pred L r = if r =? 0 then recs L - 1 else r - 1.
Proof.
  intros r Hr. destruct HL as [HN _]. unfold ring_pred.
  destruct (Z.eqb_spec r 0); apply u8_small; lia.
Qed.

Lemma ring_succ_mod : forall r, 0 <= r < recs L ->
  ring_succ L r = (r + 1) mod recs L.
Proof.
  intros r Hr. rewrite ring_succ_cases by exact Hr.
  destruct (Z.eqb_spec r (recs L - 1)) as [->|Hne].
  - replace (recs L - 1 + 1) with (recs L) by lia.
    rewrite Z.mod_same by lia. reflexivity.
  - symmetry. apply Z.mod_small. lia.
Qed.

Lemma ring_pred_mod : forall r, 0 <= r < recs L ->
  ring_pred L r = (r - 1) mod recs L.
Proof.
  intros r Hr. rewrite ring_pred_cases by exact Hr.
  destruct (Z.eqb_spec r 0) as [->|Hne].
  - apply Z.mod_unique with (q := -1); lia.
  - symmetry. apply Z.mod_small. lia.
Qed.

Lemma ring_succ_range : forall r, 0 <= r < recs L ->
  0 <= ring_succ L r < recs L.
Proof.
  intros r Hr. rewrite ring_succ_mod by exact Hr.
  apply Z.mod_pos_bound. destruct HL. lia.
Qed.

Lemma ring_pred_range : forall r, 0 <= r < recs L ->
  0 <= ring_pred L r < recs L.
Proof.
  intros r Hr. rewrite ring_pred_mod by exact Hr.
  apply Z.mod_pos_bound. destruct HL. lia.
Qed.

Lemma ring_pred_succ : forall r, 0 <= r < recs L ->
  ring_pred L (ring_succ L r) = r.
Proof.
  intros r Hr. rewrite ring_pred_cases by (apply ring_succ_range; exact Hr).
  rewrite ring_succ_cases by exact Hr.
  destruct (Z.eqb_spec r (recs L - 1)); simpl.
  - lia.
  - destruct (Z.eqb_spec (r + 1) 0); lia.
Qed.

Lemma ring_succ_pred : forall r, 0 <= r < recs L ->
  ring_succ L (ring_pred L r) = r.
Proof.
  intros r Hr. rewrite ring_succ_cases by (apply ring_pred_range; exact Hr).
  rewrite ring_pred_cases by exact Hr.
  destruct (Z.eqb_spec r 0).
  - rewrite Z.eqb_refl. lia.
  - destruct (Z.eqb_spec (r - 1) (recs L - 1)); lia.
Qed.

End RingSteps.

(** ** Reading one record *)

Section ReadRecord.

Variable L : logger.

(** The copy loop of [Log_ReadRec__], entered with [1 <= i <= 255] and
    enough fuel, makes [i] rounds: it fills offsets [k .. k+i-1] with the
    cells at [a .. a+i-1] and leaves the medium's cells alone. *)
Lemma ReadRec_loop_rounds : forall (n fuel : nat) e dst k a,
  (1 <= n)%nat -> (n <= fuel)%nat -> Z.of_nat n <= 255 ->
  exists e' dst',
    ReadRec_loop L fuel e dst k (uint L a) (Z.of_nat n) =
      Some (e', dst', k + Z.of_nat n, uint L (a + Z.of_nat n)) /\
    ee_cells e' = ee_cells e /\
    (forall j, k <= j < k + Z.of_nat n ->
               dst' j = u8 (ee_cells e (uint L (a + (j - k))))) /\
    (forall j, j < k \/ k + Z.of_nat n <= j -> dst' j = dst j).
Proof.
  induction n as [|m IH]; intros fuel e dst k a Hn Hfuel Hmax; [lia|].
  destruct fuel as [|fuel]; [lia|].
  cbn [ReadRec_loop ReadEE].
  assert (E : u8 (Z.of_nat (S m) - 1) = Z.of_nat m)
    by (rewrite u8_small; lia).
  rewrite E, uint_add_l.
  destruct m as [|m'].
  - (* the last round *)
    cbn [Z.of_nat Z.eqb].
    eexists _, _. split; [reflexivity|]. cbn [ee_cells].
    split; [reflexivity|]. split.
    + intros j Hj. assert (j = k) by lia. subst j.
      unfold poke. rewrite Z.eqb_refl.
      replace (a + (k - k)) with a by lia.
      reflexivity.
    + intros j Hj. unfold poke.
      destruct (Z.eqb_spec j k); [lia|reflexivity].
  - destruct (Z.eqb_spec (Z.of_nat (S m')) 0) as [H0|_]; [lia|].
    destruct (IH fuel
                {| ee_cells := ee_cells e;
                   ee_trace := EE_read (uint L a) :: ee_trace e |}
                (poke dst k (u8 (ee_cells e (uint L a)))) (k + 1) (a + 1))
      as (e' & dst' & Hrun & Hcells & Hin & Hout); try lia.
    exists e', dst'. split; [|split; [|split]].
    + rewrite Hrun. f_equal. f_equal; [f_equal; lia|f_equal; lia].
    + exact Hcells.
    + intros j Hj. destruct (Z.eq_dec j k) as [->|Hne].
      * rewrite Hout by lia. unfold poke. rewrite Z.eqb_refl.
        replace (a + (k - k)) with a by lia.
        reflexivity.
      * rewrite Hin by lia. cbn [ee_cells].
        do 3 f_equal. lia.
    + intros j Hj. rewrite Hout by lia. unfold poke.
      destruct (Z.eqb_spec j k); [lia|reflexivity].
Qed.

Hypothesis HL : valid_logger L.

(** [Log_ReadRec__] returns for every slot index and every medium, and
    what it leaves at the destination is the slot as [delivers] says. *)
Lemma ReadRec_delivers : forall e dst r,
  exists e' dst',
    ReadRec L e dst r = Some (e', dst') /\
    ee_cells e' = ee_cells e /\
    delivers L e r dst dst'.
Proof.
  intros e dst r. destruct HL as [_ HS]. unfold ReadRec.
  rewrite uint_add_l.
  replace (u8 (rec_size L - 1)) with (Z.of_nat (Z.to_nat (rec_size L - 1)))
    by (rewrite Z2Nat.id by lia; symmetry; apply u8_small; lia).
  destruct (ReadRec_loop_rounds (Z.to_nat (rec_size L - 1)) loop_fuel e dst 0
              (start_addr L + r * rec_size L))
    as (e1 & dst1 & Hrun & Hcells & Hin & Hout);
    [lia | unfold loop_fuel; lia | lia |].
  rewrite Hrun. cbn [ReadEE].
  rewrite Z2Nat.id in * by lia.
  eexists _, _. split; [reflexivity|]. cbn [ee_cells].
  split; [exact Hcells|]. rewrite Hcells.
  replace (0 + (rec_size L - 1)) with (rec_size L - 1) in * by lia.
  unfold delivers, slot_addr. repeat split.
  - intros j Hj. unfold poke.
    destruct (Z.eqb_spec j (rec_size L - 1)); [lia|].
    rewrite Hin by lia. do 3 f_equal. lia.
  - unfold poke. rewrite Z.eqb_refl. rewrite payload_mask_value. reflexivity.
  - unfold poke. rewrite Z.eqb_refl. rewrite payload_mask_value.
    apply land_127_range.
  - unfold poke. rewrite Z.eqb_refl. rewrite payload_mask_value.
    apply land_127_range.
  - intros j Hj. unfold poke.
    destruct (Z.eqb_spec j (rec_size L - 1)); [lia|].
    apply Hout. lia.
Qed.

End ReadRecord.

(** ** Cursor traversal *)

(** C10: every read operation that delivers a record stores exactly
    [rec_size] bytes at the destination, the bytes of the slot on the
    medium with bit 7 of the last one cleared, so that the last byte
    delivered is below 0x80 whatever the medium holds.  [Log_ReadFirst],
    [Log_ReadLast] and [Log_ReadCur] always deliver; [Log_ReadNext] and
    [Log_ReadPrev] deliver when they return a nonzero value. *)
Theorem reads_deliver_masked_slot :
  forall L, valid_logger L ->
  forall e st dst,
    (exists e' st' dst',
        ReadFirst L e st dst = Some (e', st', dst') /\
        delivers L e (Log_CurReadRec st') dst dst') /\
    (exists e' st' dst',
        ReadLast L e st dst = Some (e', st', dst') /\
        delivers L e (Log_CurReadRec st') dst dst') /\
    (exists e' dst',
        ReadCur L e st dst = Some (e', st, dst') /\
        delivers L e (Log_CurReadRec st) dst dst') /\
    (exists ret e' st' dst',
        ReadNext L e st dst = Some (ret, e', st', dst') /\
        if ret =? 0 then True else delivers L e (Log_CurReadRec st') dst dst') /\
    (exists ret e' st' dst',
        ReadPrev L e st dst = Some (ret, e', st', dst') /\
        if ret =? 0 then True else delivers L e (Log_CurReadRec st') dst dst').
Proof.
  intros L HL e st dst. repeat split.
  - unfold ReadFirst.
    destruct (ReadRec_delivers L HL e dst (ring_succ L (Log_CurRec st)))
      as (e' & dst' & -> & _ & Hd).
    eexists _, _, _. split; [reflexivity|exact Hd].
  - unfold ReadLast.
    destruct (ReadRec_delivers L HL e dst (ring_pred L (Log_CurRec st)))
      as (e' & dst' & -> & _ & Hd).
    eexists _, _, _. split; [reflexivity|exact Hd].
  - unfold ReadCur.
    destruct (ReadRec_delivers L HL e dst (Log_CurReadRec st))
      as (e' & dst' & -> & _ & Hd).
    eexists _, _. split; [reflexivity|exact Hd].
  - unfold ReadNext.
    destruct (ring_succ L (Log_CurReadRec st) =? Log_CurRec st).
    + eexists _, _, _, _. split; [reflexivity|exact I].
    + destruct (ReadRec_delivers L HL e dst (ring_succ L (Log_CurReadRec st)))
        as (e' & dst' & -> & _ & Hd).
      eexists _, _, _, _. split; [reflexivity|exact Hd].
  - unfold ReadPrev.
    destruct (ring_pred L (Log_CurReadRec st) =? Log_CurRec st).
    + eexists _, _, _, _. split; [reflexivity|exact I].
    + destruct (ReadRec_delivers L HL e dst (ring_pred L (Log_CurReadRec st)))
        as (e' & dst' & -> & _ & Hd).
      eexists _, _, _, _. split; [reflexivity|exact Hd].
Qed.

Lemma valid_demo : valid_logger demo.
Proof. unfold valid_logger, demo; simpl; lia. Defined.

(** On the demo logger with every cell of the medium 0xFF, [Log_ReadFirst]
    delivers a last byte below 0x80. *)
Lemma reads_deliver_masked_slot_witness :
  valid_logger demo /\
  exists e' st' dst',
    ReadFirst demo {| ee_cells := fun _ => 255; ee_trace := [] |}
              boot_state zeros = Some (e', st', dst') /\
    delivers demo {| ee_cells := fun _ => 255; ee_trace := [] |}
             (Log_CurReadRec st') zeros dst'.
Proof.
  split; [exact valid_demo|].
  exact (proj1 (reads_deliver_masked_slot demo valid_demo
                  {| ee_cells := fun _ => 255; ee_trace := [] |}
                  boot_state zeros)).
Defined.

(** C4: [Log_ReadNext] takes the slot after the read cursor and
    [Log_ReadPrev] the slot before it (modulo [recs]) as candidate; when
    the candidate is the write cursor the call returns 0 and changes
    neither the read cursor nor the destination (nor anything else);
    otherwise the read cursor becomes the candidate, that slot is decoded
    into the destination and the call returns 1. *)
Theorem read_next_prev_candidate :
  forall L, valid_logger L ->
  forall e st dst, 0 <= Log_CurReadRec st < recs L ->
    (let cand := (Log_CurReadRec st + 1) mod recs L in
     if cand =? Log_CurRec st
     then ReadNext L e st dst = Some (0, e, st, dst)
     else exists e' dst',
         ReadNext L e st dst = Some (1, e', set_CurReadRec st cand, dst') /\
         ee_cells e' = ee_cells e /\
         delivers L e cand dst dst') /\
    (let cand := (Log_CurReadRec st - 1) mod recs L in
     if cand =? Log_CurRec st
     then ReadPrev L e st dst = Some (0, e, st, dst)
     else exists e' dst',
         ReadPrev L e st dst = Some (1, e', set_CurReadRec st cand, dst') /\
         ee_cells e' = ee_cells e /\
         delivers L e cand dst dst').
Proof.
  intros L HL e st dst Hr. split; cbv zeta.
  - unfold ReadNext. rewrite (ring_succ_mod L HL) by exact Hr.
    destruct ((Log_CurReadRec st + 1) mod recs L =? Log_CurRec st);
      [reflexivity|].
    destruct (ReadRec_delivers L HL e dst ((Log_CurReadRec st + 1) mod recs L))
      as (e' & dst' & -> & Hc & Hd).
    exists e', dst'. auto.
  - unfold ReadPrev. rewrite (ring_pred_mod L HL) by exact Hr.
    destruct ((Log_CurReadRec st - 1) mod recs L =? Log_CurRec st);
      [reflexivity|].
    destruct (ReadRec_delivers L HL e dst ((Log_CurReadRec st - 1) mod recs L))
      as (e' & dst' & -> & Hc & Hd).
    exists e', dst'. auto.
Qed.

(** On the demo logger with write cursor 0 and read cursor 3,
    [Log_ReadNext] finds the write cursor and returns 0 with nothing
    changed. *)
Lemma read_next_prev_candidate_witness :
  0 <= Log_CurReadRec (set_CurReadRec boot_state 3) < recs demo /\
  ReadNext demo blank (set_CurReadRec boot_state 3) zeros =
    Some (0, blank, set_CurReadRec boot_state 3, zeros).
Proof.
  split; [simpl; lia|].
  refine (proj1 (read_next_prev_candidate demo valid_demo blank
                   (set_CurReadRec boot_state 3) zeros _)).
  simpl; lia.
Defined.

(** ** The non-blocking writer *)

Lemma u8_idem : forall x, u8 (u8 x) = u8 x.
Proof. intros x. apply u8_small, u8_range. Qed.

Lemma NoblockingWrite_busy : forall L e st src,
  NoblockingWrite L false e st src = Some (0, e, st).
Proof. reflexivity. Qed.

(** C9: when the medium reports not ready the invocation returns 0 and
    changes nothing: no byte is issued to the medium and every variable of
    the log and of the writer (write cursor, flag, read cursor, active
    address, byte offset, staging buffer) keeps its value. *)
Theorem busy_call_is_noop :
  forall L e st src, NoblockingWrite L false e st src = Some (0, e, st).
Proof. intros L e st src. reflexivity. Qed.

Section Writer.

Variable L : logger.
Hypothesis HL : valid_logger L.

Lemma copy_loop_rounds : forall (n fuel : nat) p k src j,
  (1 <= n)%nat -> (n <= fuel)%nat -> Z.of_nat n <= 255 ->
  exists p',
    copy_loop fuel p k src j (Z.of_nat n) = Some p' /\
    (forall x, k <= x < k + Z.of_nat n -> p' x = u8 (src (j + (x - k)))) /\
    (forall x, x < k \/ k + Z.of_nat n <= x -> p' x = p x).
Proof.
  induction n as [|m IH]; intros fuel p k src j Hn Hfuel Hmax; [lia|].
  destruct fuel as [|fuel]; [lia|].
  cbn [copy_loop].
  assert (E : u8 (Z.of_nat (S m) - 1) = Z.of_nat m)
    by (rewrite u8_small; lia).
  rewrite E.
  destruct m as [|m'].
  - cbn [Z.of_nat Z.eqb]. eexists. split; [reflexivity|]. split.
    + intros x Hx. assert (x = k) by lia. subst x.
      unfold poke. rewrite Z.eqb_refl. do 2 f_equal. lia.
    + intros x Hx. unfold poke.
      destruct (Z.eqb_spec x k); [lia|reflexivity].
  - destruct (Z.eqb_spec (Z.of_nat (S m')) 0) as [H0|_]; [lia|].
    destruct (IH fuel (poke p k (u8 (src j))) (k + 1) src (j + 1))
      as (p' & Hrun & Hin & Hout); try lia.
    exists p'. split; [exact Hrun|]. split.
    + intros x Hx. destruct (Z.eq_dec x k) as [->|Hne].
      * rewrite Hout by lia. unfold poke. rewrite Z.eqb_refl.
        do 2 f_equal. lia.
      * rewrite Hin by lia. do 2 f_equal. lia.
    + intros x Hx. rewrite Hout by lia. unfold poke.
      destruct (Z.eqb_spec x k); [lia|reflexivity].
Qed.

(** The part from [test:] on always returns; with [SRC = 0] it changes
    nothing, with a record it issues the write of byte 0. *)
Lemma NoblockingWrite_test_cases : forall e st src,
  match src with
  | None => NoblockingWrite_test L e st None = Some (1, e, st)
  | Some s =>
      exists st',
        NoblockingWrite_test L e st src =
          Some (1, WriteEE e (slot_addr L (Log_CurRec st) 0) (u8 (s 0)), st') /\
        transferring L s (Log_CurRec st) (Log_CurFlag st)
                     (Log_CurReadRec st) 1 st'
  end.
Proof.
  intros e st [s|]; [|reflexivity].
  destruct HL as [_ HS]. unfold NoblockingWrite_test.
  replace (u8 (rec_size L - 1)) with (Z.of_nat (Z.to_nat (rec_size L - 1)))
    by (rewrite Z2Nat.id by lia; apply eq_sym, u8_small; lia).
  destruct (copy_loop_rounds (Z.to_nat (rec_size L - 1)) loop_fuel
              (poke (Log_RecBuf st) 0 1) 1 s 1)
    as (p' & -> & Hin & _); [lia | unfold loop_fuel; lia | lia |].
  rewrite Z2Nat.id in Hin by lia.
  assert (Ha : uint L (uint L (start_addr L) + rec_size L * Log_CurRec st)
               = slot_addr L (Log_CurRec st) 0).
  { unfold slot_addr. rewrite uint_add_l. f_equal. lia. }
  rewrite Ha. eexists. split; [reflexivity|].
  unfold transferring. cbn [wr_a wr_i Log_CurRec Log_CurFlag Log_CurReadRec
                            Log_RecBuf set_wr set_RecBuf].
  repeat split.
  - unfold slot_addr. rewrite uint_add_l. f_equal. lia.
  - intros k Hk. rewrite Hin by lia. do 2 f_equal. lia.
Qed.

Hypothesis HR : region_fits L.

Lemma slot_addr_exact : forall w k,
  0 <= w < recs L -> 0 <= k < rec_size L ->
  slot_addr L w k = start_addr L + w * rec_size L + k.
Proof.
  intros w k Hw Hk. destruct HL as [HN HS]. destruct HR as [H0 Hfit].
  unfold slot_addr, uint. apply Z.mod_small. nia.
Qed.

(** A byte before the last one. *)
Lemma NoblockingWrite_mid : forall e st src s w f rd i,
  0 <= w < recs L -> 1 <= i < rec_size L - 1 ->
  transferring L s w f rd i st ->
  exists st',
    NoblockingWrite L true e st src =
      Some (0, WriteEE e (slot_addr L w i) (u8 (s i)), st') /\
    transferring L s w f rd (i + 1) st'.
Proof.
  intros e st src s w f rd i Hw Hi (Ha & Hi' & Hcr & Hf & Hrd & Hbuf).
  destruct HL as [HN HS]. unfold NoblockingWrite. cbn [negb].
  rewrite Ha, Hi', slot_addr_exact by lia.
  destruct (Z.eqb_spec (start_addr L + w * rec_size L + i) 0) as [E|_];
    [destruct HR; nia|]. cbn [negb].
  destruct (Z.eqb_spec i (rec_size L)) as [E|_]; [lia|].
  destruct (Z.eqb_spec i (rec_size L - 1)) as [E|_]; [lia|].
  rewrite Hbuf by lia.
  eexists. split; [reflexivity|].
  unfold transferring. cbn [wr_a wr_i Log_CurRec Log_CurFlag Log_CurReadRec
                            Log_RecBuf set_wr].
  repeat split; try assumption.
  - rewrite <- (slot_addr_exact w i) by lia. unfold slot_addr.
    rewrite uint_add_l. f_equal. lia.
  - apply u8_small. lia.
  - intros k Hk. apply Hbuf. lia.
Qed.

(** The last byte: it carries the flag, and the cursors move. *)
Lemma NoblockingWrite_last : forall e st src s w f rd,
  0 <= w < recs L ->
  transferring L s w f rd (rec_size L - 1) st ->
  exists st',
    NoblockingWrite L true e st src =
      Some (0, WriteEE e (slot_addr L w (rec_size L - 1))
                 (Z.lor f (u8 (Z.land (u8 (s (rec_size L - 1)))
                                      LOG_PAYLOAD_MASK))), st') /\
    finished L w f rd st' /\ Log_RecBuf st' = Log_RecBuf st.
Proof.
  intros e st src s w f rd Hw (Ha & Hi' & Hcr & Hf & Hrd & Hbuf).
  destruct HL as [HN HS]. unfold NoblockingWrite. cbn [negb].
  rewrite Hi', Hcr, Hf.
  assert (Hnz : (wr_a st =? 0) = false).
  { rewrite Ha, slot_addr_exact by lia. apply Z.eqb_neq. destruct HR. nia. }
  rewrite Hnz. cbn [negb].
  destruct (Z.eqb_spec (rec_size L - 1) (rec_size L)) as [E|_]; [lia|].
  rewrite Z.eqb_refl. rewrite Hbuf by lia. rewrite Ha.
  destruct (Z.eqb_spec w (recs L - 1)) as [->|Hne].
  - replace (recs L - 1 - (recs L - 1)) with 0 by lia.
    change (u8 0) with 0. cbn [Z.eqb negb].
    cbn [Log_CurReadRec set_CurFlag]. rewrite Hrd.
    eexists. split; [reflexivity|].
    unfold finished. rewrite Z.eqb_refl.
    destruct (rd =? 0);
      cbn [wr_a wr_i Log_CurRec Log_CurFlag Log_CurReadRec Log_RecBuf
           set_wr set_CurRec set_CurReadRec set_CurFlag];
      rewrite ?Hf, ?Ha; repeat split; try reflexivity; try assumption;
      try (apply u8_small; lia).
  - assert (E : u8 (w - (recs L - 1)) = w - (recs L - 1) + 256).
    { unfold u8. symmetry. apply Z.mod_unique with (q := -1); lia. }
    rewrite E.
    destruct (Z.eqb_spec (w - (recs L - 1) + 256) 0) as [H0|_]; [lia|].
    cbn [negb].
    assert (E' : u8 (w - (recs L - 1) + 256 + recs L) = w + 1).
    { unfold u8. symmetry. apply Z.mod_unique with (q := 1); lia. }
    rewrite E', Hrd.
    eexists. split; [reflexivity|].
    unfold finished.
    destruct (Z.eqb_spec w (recs L - 1)) as [?|_]; [lia|].
    destruct (rd =? w + 1);
      cbn [wr_a wr_i Log_CurRec Log_CurFlag Log_CurReadRec Log_RecBuf
           set_wr set_CurRec set_CurReadRec set_CurFlag];
      rewrite ?Hf, ?Ha; repeat split; try reflexivity; try assumption;
      try (apply u8_small; lia).
Qed.

End Writer.

(** Invocations made while the medium is busy can be left out of a run:
    the medium and the variables end up the same. *)
Lemma run_calls_skips_busy : forall L calls e st,
  match run_calls L (filter (fun c => fst c) calls) e st with
  | Some (_, e', st') =>
      exists rets, run_calls L calls e st = Some (rets, e', st')
  | None => run_calls L calls e st = None
  end.
Proof.
  intros L calls. induction calls as [|[free src] calls IH]; intros e st.
  - cbn. exists []. reflexivity.
  - destruct free; cbn [filter fst run_calls].
    + destruct (NoblockingWrite L true e st src) as [[[ret e1] st1]|];
        [|reflexivity].
      specialize (IH e1 st1).
      destruct (run_calls L (filter (fun c => fst c) calls) e1 st1)
        as [[[rets e2] st2]|].
      * destruct IH as (rets' & ->). eexists. reflexivity.
      * rewrite IH. reflexivity.
    + rewrite NoblockingWrite_busy.
      specialize (IH e st).
      destruct (run_calls L (filter (fun c => fst c) calls) e st)
        as [[[rets e2] st2]|].
      * destruct IH as (rets' & ->). eexists. reflexivity.
      * rewrite IH. reflexivity.
Qed.

Section Transfer.

Variable L : logger.
Hypothesis HL : valid_logger L.
Hypothesis HR : region_fits L.

(** From byte [i] on, [n] ready invocations issue the next [n] bytes of
    the record, one byte each; the writer is done once the last byte has
    gone and in the middle of the record before. *)
Lemma run_calls_bytes : forall (n : nat) i e st calls s w f rd,
  0 <= w < recs L -> 1 <= i <= rec_size L - 1 ->
  i + Z.of_nat n <= rec_size L ->
  length calls = n -> Forall (fun c => fst c = true) calls ->
  transferring L s w f rd i st ->
  exists e' st',
    run_calls L calls e st = Some (repeat 0 n, e', st') /\
    ee_trace e' = rev (record_events L w f s i n) ++ ee_trace e /\
    slot_bytes_stored L w f s i n e e' /\
    if i + Z.of_nat n =? rec_size L
    then finished L w f rd st'
    else transferring L s w f rd (i + Z.of_nat n) st'.
Proof.
  induction n as [|m IH];
    intros i e st calls s w f rd Hw Hi Hn Hlen Hready Ht.
  - destruct calls; [|discriminate]. exists e, st.
    split; [reflexivity|]. split; [reflexivity|].
    split; [split; [intros k Hk; cbn in Hk; lia|reflexivity]|].
    cbn [Z.of_nat]. rewrite Z.add_0_r.
    destruct (Z.eqb_spec i (rec_size L)); [lia|exact Ht].
  - destruct calls as [|[free src] calls]; [discriminate|].
    inversion Hready as [|? ? Hfree Hready']; subst. cbn [fst] in Hfree.
    subst free.
    cbn [run_calls repeat].
    destruct (Z.eq_dec i (rec_size L - 1)) as [->|Hne].
    + (* the byte at hand is the last one *)
      assert (m = O) by lia. subst m.
      destruct calls; [|discriminate].
      destruct (NoblockingWrite_last L HL HR e st src s w f rd Hw Ht)
        as (st' & -> & Hfin & _).
      cbn [run_calls].
      eexists _, _. split; [reflexivity|]. split; [|split].
      * cbn [WriteEE ee_trace record_events zrange map rev app].
        unfold stored_byte. rewrite (Z.eqb_refl (rec_size L - 1)).
        reflexivity.
      * split.
        -- intros k Hk. assert (k = rec_size L - 1) by lia. subst k.
           cbn [WriteEE ee_cells]. unfold poke, stored_byte.
           rewrite !Z.eqb_refl. reflexivity.
        -- intros a Ha. cbn [WriteEE ee_cells]. unfold poke.
           destruct (Z.eqb_spec a (slot_addr L w (rec_size L - 1)))
             as [E|_]; [|reflexivity].
           exfalso. apply (Ha (rec_size L - 1)); [lia|exact E].
      * replace (rec_size L - 1 + Z.of_nat 1) with (rec_size L) by lia.
        rewrite Z.eqb_refl. exact Hfin.
    + assert (Hi2 : 1 <= i < rec_size L - 1) by lia.
      destruct (NoblockingWrite_mid L HL HR e st src s w f rd i Hw Hi2 Ht)
        as (st1 & -> & Ht1).
      injection Hlen as Hlen.
      destruct (IH (i + 1) (WriteEE e (slot_addr L w i) (u8 (s i))) st1 calls
                   s w f rd) as (e' & st' & -> & Htr & (Hin & Hout) & Hfin);
        try assumption; try lia.
      assert (Hbyte : stored_byte L f s i = u8 (s i)).
      { unfold stored_byte.
        destruct (Z.eqb_spec i (rec_size L - 1)) as [?|_]; [lia|reflexivity]. }
      eexists _, _. split; [reflexivity|]. split; [|split].
      * rewrite Htr. cbn [WriteEE ee_trace].
        change (record_events L w f s i (S m))
          with (EE_write (slot_addr L w i) (stored_byte L f s i)
                  :: record_events L w f s (i + 1) m).
        cbn [rev]. rewrite <- app_assoc. cbn [app].
        rewrite Hbyte, u8_idem. reflexivity.
      * split.
        -- intros k Hk. destruct (Z.eq_dec k i) as [->|Hki].
           ++ rewrite Hout.
              ** cbn [WriteEE ee_cells]. unfold poke.
                 rewrite Z.eqb_refl, Hbyte, u8_idem. reflexivity.
              ** intros k Hk'.
                 rewrite !(slot_addr_exact L HL HR) by lia. lia.
           ++ apply Hin. lia.
        -- intros a Ha. rewrite Hout.
           ++ cbn [WriteEE ee_cells]. unfold poke.
              destruct (Z.eqb_spec a (slot_addr L w i)) as [E|_];
                [|reflexivity].
              exfalso. apply (Ha i); [lia|exact E].
           ++ intros k Hk. apply Ha. lia.
      * replace (i + Z.of_nat (S m)) with (i + 1 + Z.of_nat m) by lia.
        exact Hfin.
Qed.

(** A record handed to a writer at rest: [n] ready invocations, the first
    with the record, issue its first [n] bytes to the slot at the write
    cursor, one each; the first returns 1 and the others 0.  After
    [rec_size] of them the writer is done, before that it is in the
    middle of the record and the cursors and the flag are as before. *)
Lemma run_calls_record : forall e st s rest,
  at_rest L st -> 0 <= Log_CurRec st < recs L ->
  (length rest < Z.to_nat (rec_size L))%nat ->
  Forall (fun c => fst c = true) rest ->
  exists e' st',
    run_calls L ((true, Some s) :: rest) e st =
      Some (1 :: repeat 0 (length rest), e', st') /\
    ee_trace e' =
      rev (record_events L (Log_CurRec st) (Log_CurFlag st) s 0
             (S (length rest))) ++ ee_trace e /\
    slot_bytes_stored L (Log_CurRec st) (Log_CurFlag st) s 0
                      (S (length rest)) e e' /\
    if Z.of_nat (S (length rest)) =? rec_size L
    then finished L (Log_CurRec st) (Log_CurFlag st) (Log_CurReadRec st) st'
    else transferring L s (Log_CurRec st) (Log_CurFlag st)
                      (Log_CurReadRec st) (Z.of_nat (S (length rest))) st'.
Proof.
  intros e st s rest Hrest Hw Hlen Hready.
  assert (HS : 2 <= rec_size L <= 255) by (destruct HL; assumption).
  assert (Hstart : exists st1,
    NoblockingWrite L true e st (Some s) =
      Some (1, WriteEE e (slot_addr L (Log_CurRec st) 0) (u8 (s 0)), st1) /\
    transferring L s (Log_CurRec st) (Log_CurFlag st) (Log_CurReadRec st)
                 1 st1).
  { unfold NoblockingWrite. cbn [negb].
    destruct (Z.eqb_spec (wr_a st) 0) as [Hz|Hnz]; cbn [negb].
    - exact (NoblockingWrite_test_cases L HL e st (Some s)).
    - destruct Hrest as [Hz|Hi]; [contradiction|].
      rewrite Hi, Z.eqb_refl.
      exact (NoblockingWrite_test_cases L HL e
               (set_wr st 0 (rec_size L)) (Some s)). }
  destruct Hstart as (st1 & Hcall & Ht1).
  cbn [run_calls]. rewrite Hcall.
  destruct (run_calls_bytes (length rest) 1
              (WriteEE e (slot_addr L (Log_CurRec st) 0) (u8 (s 0))) st1 rest
              s (Log_CurRec st) (Log_CurFlag st) (Log_CurReadRec st))
    as (e' & st' & -> & Htr & (Hin & Hout) & Hfin);
    try assumption; try lia.
  assert (Hbyte : stored_byte L (Log_CurFlag st) s 0 = u8 (s 0)).
  { unfold stored_byte.
    destruct (Z.eqb_spec 0 (rec_size L - 1)) as [?|_]; [lia|reflexivity]. }
  eexists _, _. split; [reflexivity|]. split; [|split].
  - rewrite Htr. cbn [WriteEE ee_trace].
    change (record_events L (Log_CurRec st) (Log_CurFlag st) s 0
              (S (length rest)))
      with (EE_write (slot_addr L (Log_CurRec st) 0)
                     (stored_byte L (Log_CurFlag st) s 0)
              :: record_events L (Log_CurRec st) (Log_CurFlag st) s (0 + 1)
                   (length rest)).
    cbn [rev]. rewrite <- app_assoc. cbn [app].
    rewrite Hbyte, u8_idem. reflexivity.
  - split.
    + intros k Hk. destruct (Z.eq_dec k 0) as [->|Hk0].
      * rewrite Hout.
        -- cbn [WriteEE ee_cells]. unfold poke.
           rewrite Z.eqb_refl, Hbyte, u8_idem. reflexivity.
        -- intros k Hk'. rewrite !(slot_addr_exact L HL HR) by lia. lia.
      * apply Hin. lia.
    + intros a Ha. rewrite Hout.
      * cbn [WriteEE ee_cells]. unfold poke.
        destruct (Z.eqb_spec a (slot_addr L (Log_CurRec st) 0)) as [E|_];
          [|reflexivity].
        exfalso. apply (Ha 0); [lia|exact E].
      * intros k Hk. apply Ha. lia.
  - replace (Z.of_nat (S (length rest))) with (1 + Z.of_nat (length rest))
      by lia.
    exact Hfin.
Qed.

(** Every ready invocation returns; a status probe issues nothing and
    returns 1, every other ready invocation issues exactly one write. *)
Lemma NoblockingWrite_ready_cases : forall e st src,
  exists ret e' st',
    NoblockingWrite L true e st src = Some (ret, e', st') /\
    if is_probe L st src
    then ret = 1 /\ e' = e
    else exists a b, e' = WriteEE e a b.
Proof.
  intros e st src. unfold NoblockingWrite, is_probe. cbn [negb].
  destruct (Z.eqb_spec (wr_a st) 0) as [Hz|Hnz]; cbn [negb orb].
  - pose proof (NoblockingWrite_test_cases L HL e st src) as H.
    destruct src as [s|].
    + destruct H as (st' & -> & _). eexists _, _, _.
      split; [reflexivity|]. eexists _, _. reflexivity.
    + rewrite H. eexists _, _, _. split; [reflexivity|]. split; reflexivity.
  - destruct (Z.eqb_spec (wr_i st) (rec_size L)) as [Hi|Hi].
    + pose proof (NoblockingWrite_test_cases L HL e
                    (set_wr st 0 (wr_i st)) src) as H.
      destruct src as [s|].
      * destruct H as (st' & -> & _). eexists _, _, _.
        split; [reflexivity|]. eexists _, _. reflexivity.
      * rewrite H. eexists _, _, _. split; [reflexivity|].
        split; reflexivity.
    + replace (match src with Some _ => false | None => false end)
        with false by (destruct src; reflexivity).
      destruct (wr_i st =? rec_size L - 1).
      * destruct (negb (u8 (Log_CurRec st - (recs L - 1)) =? 0));
          eexists _, _, _; (split; [reflexivity|]);
          eexists _, _; reflexivity.
      * eexists _, _, _. split; [reflexivity|].
        eexists _, _. reflexivity.
Qed.

End Transfer.

(** C6, as the code has it: a ready invocation issues at most one byte to
    the medium: none when it is a status probe ([SRC = 0] while no record
    is in transfer; it returns 1), exactly one otherwise.  A record handed
    to a writer at rest goes out in [rec_size] ready invocations, one byte
    each, whatever number of busy invocations comes in between; after
    fewer ready invocations the record is still in transfer and the
    cursors and the flag are as they were. *)
Theorem ready_calls_issue_one_byte_each :
  forall L, valid_logger L -> region_fits L ->
  forall e st s calls rest e0 st0 arg,
    at_rest L st -> 0 <= Log_CurRec st < recs L ->
    filter (fun c => fst c) calls = (true, Some s) :: rest ->
    (length rest < Z.to_nat (rec_size L))%nat ->
    (exists ret e' st',
        NoblockingWrite L true e0 st0 arg = Some (ret, e', st') /\
        if is_probe L st0 arg
        then ret = 1 /\ e' = e0
        else exists a b, e' = WriteEE e0 a b) /\
    (exists rets e' st',
        run_calls L calls e st = Some (rets, e', st') /\
        ee_trace e' =
          rev (record_events L (Log_CurRec st) (Log_CurFlag st) s 0
                 (S (length rest))) ++ ee_trace e /\
        if Z.of_nat (S (length rest)) =? rec_size L
        then finished L (Log_CurRec st) (Log_CurFlag st)
                      (Log_CurReadRec st) st'
        else transferring L s (Log_CurRec st) (Log_CurFlag st)
                          (Log_CurReadRec st) (Z.of_nat (S (length rest)))
                          st').
Proof.
  intros L HL HR e st s calls rest e0 st0 arg Hrest Hw Hcalls Hlen.
  split; [exact (NoblockingWrite_ready_cases L HL e0 st0 arg)|].
  assert (Hready : Forall (fun c : bool * option buffer => fst c = true) rest).
  { apply Forall_forall. intros c Hc.
    assert (Hin : In c (filter (fun c => fst c) calls))
      by (rewrite Hcalls; right; exact Hc).
    apply filter_In in Hin. exact (proj2 Hin). }
  destruct (run_calls_record L HL HR e st s rest Hrest Hw Hlen Hready)
    as (e' & st' & Hrun & Htr & _ & Hfin).
  pose proof (run_calls_skips_busy L calls e st) as Hskip.
  rewrite Hcalls, Hrun in Hskip. destruct Hskip as (rets & Hrets).
  exists rets, e', st'. auto.
Qed.

Lemma fits_demo : region_fits demo.
Proof. unfold region_fits, demo; simpl; lia. Defined.

(** On the demo logger: a record handed over at start, one busy
    invocation, two more ready ones. *)
Lemma ready_calls_issue_one_byte_each_witness :
  at_rest demo boot_state /\
  0 <= Log_CurRec boot_state < recs demo /\
  exists rets e' st',
    run_calls demo
      [(true, Some (buffer_of rec_A)); (false, None); (true, None);
       (true, None)] blank boot_state = Some (rets, e', st') /\
    ee_trace e' =
      rev (record_events demo 0 0 (buffer_of rec_A) 0 3) ++ [] /\
    finished demo 0 0 0 st'.
Proof.
  assert (H1 : at_rest demo boot_state) by (left; reflexivity).
  assert (H2 : 0 <= Log_CurRec boot_state < recs demo) by (simpl; lia).
  split; [exact H1|]. split; [exact H2|].
  refine (proj2 (ready_calls_issue_one_byte_each demo valid_demo fits_demo
                   blank boot_state (buffer_of rec_A)
                   [(true, Some (buffer_of rec_A)); (false, None);
                    (true, None); (true, None)]
                   [(true, None); (true, None)]
                   blank boot_state None H1 H2 eq_refl _)).
  simpl. lia.
Defined.

(** C6 as stated fails: a ready invocation with [SRC = 0] on an idle
    writer issues no byte. *)
Lemma probe_issues_no_byte :
  ~ (exists ret a b st',
        NoblockingWrite demo true blank boot_state None =
          Some (ret, WriteEE blank a b, st')).
Proof.
  intros (ret & a & b & st' & H).
  apply (f_equal (fun r => match r with
                           | Some (_, e, _) => ee_trace e
                           | None => []
                           end)) in H.
  discriminate H.
Qed.

(** ** Wrapping around the ring *)

Lemma last_cons : forall (A : Type) (a d : A) l, last (a :: l) d = last l a.
Proof.
  intros A a d l. revert a d. induction l as [|b l IH]; intros a d.
  - reflexivity.
  - change (last (a :: b :: l) d) with (last (b :: l) d).
    rewrite (IH b d), (IH b a). reflexivity.
Qed.

Lemma flips_none : forall fs f, flips f fs = O -> last fs f = f.
Proof.
  induction fs as [|g fs IH]; intros f H; [reflexivity|].
  cbn [flips] in H. rewrite last_cons.
  destruct (Z.eqb_spec g f) as [->|Hne]; [|discriminate].
  apply IH. exact H.
Qed.

(** A value that is always one of the two flag values and changes once
    along a list ends as the other one. *)
Lemma flips_once : forall fs f,
  (f = 0 \/ f = LOG_FLAG_MASK) ->
  Forall (fun g => g = 0 \/ g = LOG_FLAG_MASK) fs ->
  flips f fs = 1%nat ->
  last fs f = Z.lxor f LOG_FLAG_MASK.
Proof.
  induction fs as [|g fs IH]; intros f Hf Hall H; [discriminate|].
  inversion Hall as [|? ? Hg Hall']; subst.
  cbn [flips] in H. rewrite last_cons.
  destruct (Z.eqb_spec g f) as [->|Hne].
  - apply IH; assumption.
  - rewrite (flips_none fs g) by (injection H as H; exact H).
    unfold LOG_FLAG_MASK in *. destruct Hf, Hg; subst; try reflexivity;
      contradiction.
Qed.

(** All slots but one are readable. *)
Lemma filter_zrange_length : forall w (n : nat) from,
  Z.of_nat (length (filter (fun r => negb (r =? w)) (zrange from n))) =
  Z.of_nat n - (if (from <=? w) && (w <? from + Z.of_nat n) then 1 else 0).
Proof.
  intros w. induction n as [|n IH]; intros from.
  - cbn. destruct (from <=? w) eqn:E1; destruct (w <? from + 0) eqn:E2;
      cbn; try reflexivity. apply Z.leb_le in E1. apply Z.ltb_lt in E2. lia.
  - cbn [zrange filter]. destruct (Z.eqb_spec from w) as [->|Hne]; cbn [negb].
    + rewrite IH.
      destruct (Z.leb_spec (w + 1) w); [lia|]. cbn [andb].
      destruct (Z.leb_spec w w); [|lia].
      destruct (Z.ltb_spec w (w + Z.of_nat (S n))); [|lia].
      cbn [andb]. lia.
    + cbn [length]. rewrite Nat2Z.inj_succ, IH.
      destruct (Z.leb_spec (from + 1) w), (Z.leb_spec from w);
        destruct (Z.ltb_spec w (from + 1 + Z.of_nat n)),
                 (Z.ltb_spec w (from + Z.of_nat (S n)));
        cbn [andb]; lia.
Qed.

Lemma readable_length : forall L st,
  0 <= Log_CurRec st < recs L ->
  Z.of_nat (length (readable L st)) = recs L - 1.
Proof.
  intros L st Hw. unfold readable. rewrite filter_zrange_length.
  rewrite Z2Nat.id by lia.
  destruct (Z.leb_spec 0 (Log_CurRec st)); [|lia].
  destruct (Z.ltb_spec (Log_CurRec st) (0 + recs L)); [|lia].
  cbn [andb]. lia.
Qed.

Section Wrap.

Variable L : logger.
Hypothesis HL : valid_logger L.
Hypothesis HR : region_fits L.

(** One record written to a consistent log: the transfer ends, the write
    cursor steps on, the flag flips when the cursor wraps to 0 and only
    then, and the log is consistent again. *)
Lemma transfer_step : forall s e st,
  consistent L st ->
  exists e' st',
    transfer L s e st = Some (e', st') /\
    ee_trace e' =
      rev (record_events L (Log_CurRec st) (Log_CurFlag st) s 0
             (Z.to_nat (rec_size L))) ++ ee_trace e /\
    slot_bytes_stored L (Log_CurRec st) (Log_CurFlag st) s 0
                      (Z.to_nat (rec_size L)) e e' /\
    finished L (Log_CurRec st) (Log_CurFlag st) (Log_CurReadRec st) st' /\
    consistent L st'.
Proof.
  intros s e st ((Hw & Hrd) & Hf & Hrest).
  assert (HN : 2 <= recs L <= 255) by (destruct HL; assumption).
  assert (HS : 2 <= rec_size L <= 255) by (destruct HL; assumption).
  unfold transfer, issue_bytes.
  destruct (run_calls_record L HL HR e st s
              (repeat (true, None) (Z.to_nat (rec_size L) - 1)))
    as (e' & st' & Hrun & Htr & Hst & Hfin); try assumption.
  - rewrite repeat_length. lia.
  - apply Forall_forall. intros c Hc. apply repeat_spec in Hc. subst c.
    reflexivity.
  - rewrite repeat_length in *.
    replace (S (Z.to_nat (rec_size L) - 1)) with (Z.to_nat (rec_size L))
      in * by lia.
    rewrite Z2Nat.id in Hfin by lia. rewrite Z.eqb_refl in Hfin.
    rewrite Hrun. exists e', st'. split; [reflexivity|].
    split; [exact Htr|]. split; [exact Hst|]. split; [exact Hfin|].
    destruct Hfin as (_ & Hi & Hcr & Hfl & Hrd').
    unfold consistent, cursors_in_range, at_rest.
    rewrite Hcr, Hfl, Hrd', Hi. repeat split.
    + destruct (Z.eqb_spec (Log_CurRec st) (recs L - 1)); lia.
    + destruct (Z.eqb_spec (Log_CurRec st) (recs L - 1)); lia.
    + destruct (Log_CurReadRec st =? _); [|lia].
      destruct (Z.eqb_spec (Log_CurReadRec st) (recs L - 1)); [lia|].
      rewrite u8_small; lia.
    + destruct (Log_CurReadRec st =? _); [|lia].
      destruct (Z.eqb_spec (Log_CurReadRec st) (recs L - 1)); [lia|].
      rewrite u8_small; lia.
    + unfold LOG_FLAG_MASK in *.
      destruct (Log_CurRec st =? recs L - 1); [|exact Hf].
      destruct Hf as [-> | ->]; [right|left]; reflexivity.
    + right. reflexivity.
Qed.

(** [k] records written to a consistent log with write cursor [w]: the
    cursor ends at [(w + k) mod recs] and the flag has changed
    [(w + k) / recs] times. *)
Lemma transfers_wrap_count : forall srcs e st,
  consistent L st ->
  exists e' sts,
    transfers L srcs e st = Some (e', sts) /\
    length sts = length srcs /\
    Forall (consistent L) sts /\
    Log_CurRec (last sts st) =
      (Log_CurRec st + Z.of_nat (length srcs)) mod recs L /\
    Z.of_nat (flips (Log_CurFlag st) (map Log_CurFlag sts)) =
      (Log_CurRec st + Z.of_nat (length srcs)) / recs L.
Proof.
  assert (HN : 2 <= recs L <= 255) by (destruct HL; assumption).
  induction srcs as [|s srcs IH]; intros e st Hc.
  - exists e, []. cbn [transfers length last map flips Z.of_nat].
    destruct Hc as ((Hw & _) & _). rewrite Z.add_0_r.
    repeat split; try constructor.
    + symmetry. apply Z.mod_small. exact Hw.
    + symmetry. apply Z.div_small. exact Hw.
  - cbn [transfers].
    destruct (transfer_step s e st Hc)
      as (e1 & st1 & -> & _ & _ & Hfin & Hc1).
    destruct (IH e1 st1 Hc1) as (e' & sts & -> & Hlen & Hall & Hcr & Hfl).
    exists e', (st1 :: sts).
    destruct Hfin as (_ & _ & Hcr1 & Hfl1 & _).
    destruct Hc as ((Hw & _) & Hf & _).
    split; [reflexivity|]. split; [cbn [length]; congruence|].
    split; [constructor; assumption|].
    rewrite last_cons. cbn [map flips length].
    rewrite Nat2Z.inj_add, Hfl, Hcr, Hcr1, Hfl1, Nat2Z.inj_succ.
    destruct (Z.eqb_spec (Log_CurRec st) (recs L - 1)) as [E|E].
    + rewrite E.
      replace (recs L - 1 + Z.succ (Z.of_nat (length srcs)))
        with (0 + Z.of_nat (length srcs) + 1 * recs L) by lia.
      rewrite Z_mod_plus_full, Z_div_plus_full by lia.
      split; [reflexivity|].
      unfold LOG_FLAG_MASK in *.
      assert (Hneq : (u8 (Z.lxor (Log_CurFlag st) 128) =? Log_CurFlag st)
                     = false)
        by (destruct Hf as [E0|E0]; rewrite E0; reflexivity).
      rewrite Hneq. change (Z.of_nat 1) with 1. lia.
    + replace (Log_CurRec st + Z.succ (Z.of_nat (length srcs)))
        with (Log_CurRec st + 1 + Z.of_nat (length srcs)) by lia.
      split; [reflexivity|].
      rewrite Z.eqb_refl. change (Z.of_nat 0) with 0. lia.
Qed.

End Wrap.

(** C5: from a consistent log state, [recs] completed transfers change
    the flag variable exactly once (it ends as the other flag value),
    bring the write cursor back to where it was, and before and after
    them the slots other than the write cursor number [recs - 1]. *)
Theorem wrap_flips_flag_once :
  forall L, valid_logger L -> region_fits L ->
  forall e st srcs,
    consistent L st ->
    length srcs = Z.to_nat (recs L) ->
    exists e' sts,
      transfers L srcs e st = Some (e', sts) /\
      length sts = Z.to_nat (recs L) /\
      flips (Log_CurFlag st) (map Log_CurFlag sts) = 1%nat /\
      Log_CurFlag (last sts st) = Z.lxor (Log_CurFlag st) LOG_FLAG_MASK /\
      Log_CurRec (last sts st) = Log_CurRec st /\
      Z.of_nat (length (readable L st)) = recs L - 1 /\
      Z.of_nat (length (readable L (last sts st))) = recs L - 1.
Proof.
  intros L HL HR e st srcs Hc Hlen.
  assert (HN : 2 <= recs L <= 255) by (destruct HL; assumption).
  destruct (transfers_wrap_count L HL HR srcs e st Hc)
    as (e' & sts & Hrun & Hlen' & Hall & Hcr & Hfl).
  pose proof Hc as ((Hw & _) & Hf & _).
  rewrite Hlen, Z2Nat.id in Hcr, Hfl by lia.
  replace (Log_CurRec st + recs L) with (Log_CurRec st + 1 * recs L)
    in Hcr, Hfl by lia.
  rewrite Z_mod_plus_full in Hcr. rewrite Z_div_plus_full in Hfl by lia.
  rewrite Z.mod_small in Hcr by exact Hw.
  rewrite Z.div_small in Hfl by exact Hw.
  assert (Hone : flips (Log_CurFlag st) (map Log_CurFlag sts) = 1%nat) by lia.
  exists e', sts. split; [exact Hrun|]. split; [congruence|].
  split; [exact Hone|]. split; [|split; [exact Hcr|split]].
  - rewrite <- (flips_once (map Log_CurFlag sts) (Log_CurFlag st) Hf);
      [| |exact Hone].
    + clear. revert st. induction sts as [|a l IH]; intros st.
      * reflexivity.
      * cbn [map]. rewrite !last_cons. apply IH.
    + apply Forall_forall. intros g Hg. apply in_map_iff in Hg.
      destruct Hg as (x & <- & Hx).
      rewrite Forall_forall in Hall. destruct (Hall x Hx) as (_ & Hfx & _).
      exact Hfx.
  - apply readable_length. exact Hw.
  - apply readable_length. rewrite Hcr. exact Hw.
Qed.

(** On the demo logger, from the variables at program start. *)
Lemma wrap_flips_flag_once_witness :
  consistent demo boot_state /\
  exists e' sts,
    transfers demo
      [buffer_of rec_A; buffer_of rec_A; buffer_of rec_A; buffer_of rec_B]
      blank boot_state = Some (e', sts) /\
    length sts = Z.to_nat (recs demo) /\
    flips (Log_CurFlag boot_state) (map Log_CurFlag sts) = 1%nat /\
    Log_CurFlag (last sts boot_state) =
      Z.lxor (Log_CurFlag boot_state) LOG_FLAG_MASK /\
    Log_CurRec (last sts boot_state) = Log_CurRec boot_state /\
    Z.of_nat (length (readable demo boot_state)) = recs demo - 1 /\
    Z.of_nat (length (readable demo (last sts boot_state))) = recs demo - 1.
Proof.
  assert (H : consistent demo boot_state).
  { unfold consistent, cursors_in_range, at_rest. simpl.
    repeat split; try lia; left; reflexivity. }
  split; [exact H|].
  exact (wrap_flips_flag_once demo valid_demo fits_demo blank boot_state
           [buffer_of rec_A; buffer_of rec_A; buffer_of rec_A; buffer_of rec_B]
           H eq_refl).
Defined.

(** ** The scenario with 4 slots of 3 bytes *)

(** C7, as the code has it: on the all-zero medium start-up leaves the
    write cursor at 0 (read cursor 1, flag variable 0x80); [A], [A], [A],
    [B] go to slots 0, 1, 2, 3; the write cursor is 1, 2, 3 and then back
    at 0, and the flag variable changes with the completion of the fourth
    write and not before; [Log_ReadFirst] then delivers slot 1 (an [A]),
    and [Log_ReadNext] delivers slot 2 (an [A]), slot 3 (the [B]) and
    then returns 0, the read cursor and the destination staying as they
    are: three records, not four. *)
Theorem scenario_outcome :
  option_map (fun r => (Log_CurRec (snd r), Log_CurReadRec (snd r),
                        Log_CurFlag (snd r))) (restart demo blank)
    = Some (0, 1, 128) /\
  option_map (fun r => cursor_and_flag (snd r)) scenario_written
    = Some [(1, 128); (2, 128); (3, 128); (0, 0)] /\
  option_map (fun r => cells_from (fst r) 16 12) scenario_written
    = Some [65; 65; 193; 65; 65; 193; 65; 65; 193; 66; 66; 194] /\
  scenario_reads
    = Some [(1, 1, rec_A); (1, 2, rec_A); (1, 3, rec_B);
            (0, 3, rec_B); (0, 3, rec_B)].
Proof. repeat split; vm_compute; reflexivity. Qed.

(** C7 as stated fails: the reads do not return [A], [A], [A], [B] and
    then 0. *)
Lemma scenario_reads_not_four_records :
  option_map returned scenario_reads <>
  Some [(1, rec_A); (1, rec_A); (1, rec_A); (1, rec_B); (0, rec_B)].
Proof. vm_compute. intro H. discriminate H. Qed.

(** ** The recovery scan *)

Lemma land_flag_cases : forall x,
  Z.land LOG_FLAG_MASK x = 0 \/ Z.land LOG_FLAG_MASK x = LOG_FLAG_MASK.
Proof.
  intros x. unfold LOG_FLAG_MASK. change 128 with (2 ^ 7).
  destruct (Z.testbit x 7) eqn:E; [right|left]; apply Z.bits_inj'; intros n Hn;
    rewrite Z.land_spec, Z.pow2_bits_eqb by lia.
  - destruct (Z.eqb_spec 7 n) as [<-|_]; [rewrite E|]; reflexivity.
  - rewrite Z.bits_0. destruct (Z.eqb_spec 7 n) as [<-|_]; [rewrite E|];
      reflexivity.
Qed.

Lemma flag_test : forall f g,
  (f = 0 \/ f = LOG_FLAG_MASK) -> (g = 0 \/ g = LOG_FLAG_MASK) ->
  (u8 (Z.lxor f g) =? 0) = (g =? f).
Proof.
  unfold LOG_FLAG_MASK. intros f g [-> | ->] [-> | ->]; reflexivity.
Qed.

Section Scan.

Variable L : logger.
Hypothesis HL : valid_logger L.

(** The loop of [Log_InitLog], entered with counter [cr] and [n] rounds to
    go, makes [m >= 1] rounds, reading the bytes [cr+1 .. cr+m] of the
    scan; all but the last one carry the flag [f]; the last one either
    differs, and the loop returns with write cursor [cr + m - 1], or it
    is the [recs]-th byte and the loop ends. *)
Lemma InitLog_loop_scan : forall (n fuel : nat) e st f cr,
  (f = 0 \/ f = LOG_FLAG_MASK) ->
  1 <= cr -> cr + Z.of_nat n = recs L ->
  (1 <= n)%nat -> (n <= fuel)%nat ->
  exists e' x (m : nat),
    InitLog_loop L fuel e st (scan_addr L cr) f cr = Some (e', x) /\
    ee_cells e' = ee_cells e /\
    (1 <= m <= n)%nat /\
    ee_trace e' =
      rev (map (fun j => EE_read (scan_addr L j)) (zrange (cr + 1) m))
      ++ ee_trace e /\
    (forall j, cr < j < cr + Z.of_nat m -> scan_flag L e j = f) /\
    if scan_flag L e (cr + Z.of_nat m) =? f
    then m = n /\ x = Scan_end
    else x = Scan_return
               (set_CurReadRec (set_CurRec st (cr + Z.of_nat m - 1))
                               (ring_succ L (cr + Z.of_nat m - 1))).
Proof.
  assert (HN : 2 <= recs L <= 255) by (destruct HL; assumption).
  induction n as [|n IH]; intros fuel e st f cr Hf Hcr Hn Hn1 Hfuel; [lia|].
  destruct fuel as [|fuel]; [lia|].
  cbn [InitLog_loop Log_ReadFlag ReadEE].
  assert (Ha : uint L (scan_addr L cr + rec_size L) = scan_addr L (cr + 1)).
  { unfold scan_addr. rewrite uint_add_l. f_equal. lia. }
  rewrite Ha.
  change (Z.land LOG_FLAG_MASK (u8 (ee_cells e (scan_addr L (cr + 1)))))
    with (scan_flag L e (cr + 1)).
  rewrite (flag_test f (scan_flag L e (cr + 1)) Hf (land_flag_cases _)).
  destruct (Z.eqb_spec (scan_flag L e (cr + 1)) f) as [Heq|Hneq]; cbn [negb].
  - rewrite (u8_small (cr + 1)) by lia.
    destruct (Z.ltb_spec (cr + 1) (recs L)) as [Hlt|Hge].
    + destruct (IH fuel
                  {| ee_cells := ee_cells e;
                     ee_trace := EE_read (scan_addr L (cr + 1)) :: ee_trace e |}
                  st f (cr + 1) Hf)
        as (e' & x & m & Hrun & Hcells & Hm & Htr & Hall & Hlast); try lia.
      exists e', x, (S m). split; [exact Hrun|]. split; [exact Hcells|].
      split; [lia|]. split; [|split].
      * rewrite Htr. cbn [ee_trace zrange map rev].
        rewrite <- app_assoc. reflexivity.
      * intros j Hj. destruct (Z.eq_dec j (cr + 1)) as [->|Hne];
          [exact Heq|]. apply Hall. lia.
      * replace (cr + Z.of_nat (S m)) with (cr + 1 + Z.of_nat m) by lia.
        change (scan_flag L e (cr + 1 + Z.of_nat m))
          with (scan_flag L
                  {| ee_cells := ee_cells e;
                     ee_trace := EE_read (scan_addr L (cr + 1)) :: ee_trace e |}
                  (cr + 1 + Z.of_nat m)).
        destruct (scan_flag L _ (cr + 1 + Z.of_nat m) =? f).
        -- destruct Hlast as (-> & ->). split; reflexivity.
        -- exact Hlast.
    + eexists _, _, 1%nat. split; [reflexivity|]. cbn [ee_cells ee_trace].
      split; [reflexivity|]. split; [lia|]. split; [reflexivity|].
      split; [intros j Hj; lia|].
      change (Z.of_nat 1) with 1. rewrite Heq, Z.eqb_refl.
      split; [lia|reflexivity].
  - eexists _, _, 1%nat. split; [reflexivity|]. cbn [ee_cells ee_trace].
    split; [reflexivity|]. split; [lia|]. split; [reflexivity|].
    split; [intros j Hj; lia|].
    change (Z.of_nat 1) with 1.
    destruct (Z.eqb_spec (scan_flag L e (cr + 1)) f) as [?|_];
      [contradiction|].
    replace (cr + 1 - 1) with cr by lia. reflexivity.
Qed.

(** [Log_InitLog] returns for every medium.  It reads the bytes
    [1 .. m + 1] of the scan, the first [m] of which carry one flag; when
    byte [m + 1] differs the write cursor is [m], the read cursor the
    slot after it and the flag variable the flag of byte 1; when all
    [recs] bytes agree the write cursor is 0, the read cursor 1 and the
    flag variable the other flag value.  The writer's variables are not
    touched. *)
Lemma InitLog_scan : forall e st,
  exists e' st' (m : nat),
    InitLog L e st = Some (e', st') /\
    ee_cells e' = ee_cells e /\
    1 <= Z.of_nat m <= recs L - 1 /\
    ee_trace e' =
      rev (map (fun j => EE_read (scan_addr L j)) (zrange 1 (S m)))
      ++ ee_trace e /\
    (forall j, 1 <= j <= Z.of_nat m -> scan_flag L e j = scan_flag L e 1) /\
    (if scan_flag L e (Z.of_nat m + 1) =? scan_flag L e 1
     then Z.of_nat m = recs L - 1 /\
          Log_CurRec st' = 0 /\ Log_CurReadRec st' = 1 /\
          Log_CurFlag st' = u8 (Z.lxor (scan_flag L e 1) LOG_FLAG_MASK)
     else Log_CurRec st' = Z.of_nat m /\
          Log_CurReadRec st' = (Z.of_nat m + 1) mod recs L /\
          Log_CurFlag st' = scan_flag L e 1) /\
    Log_RecBuf st' = Log_RecBuf st /\ wr_a st' = wr_a st /\
    wr_i st' = wr_i st.
Proof.
  intros e st.
  assert (HN : 2 <= recs L <= 255) by (destruct HL; assumption).
  unfold InitLog. cbn [Log_ReadFlag ReadEE].
  assert (Ha : uint L (uint L (start_addr L) + rec_size L) = scan_addr L 1).
  { unfold scan_addr. rewrite uint_add_l. f_equal. lia. }
  rewrite Ha.
  change (Z.land LOG_FLAG_MASK (u8 (ee_cells e (scan_addr L 1))))
    with (scan_flag L e 1).
  destruct (InitLog_loop_scan (Z.to_nat (recs L - 1)) loop_fuel
              {| ee_cells := ee_cells e;
                 ee_trace := EE_read (scan_addr L 1) :: ee_trace e |}
              (set_CurFlag st (scan_flag L e 1)) (scan_flag L e 1) 1
              (land_flag_cases _))
    as (e' & x & m & Hrun & Hcells & Hm & Htr & Hall & Hlast);
    [lia | lia | lia | unfold loop_fuel; lia |].
  rewrite Hrun.
  change (scan_flag L {| ee_cells := ee_cells e;
                         ee_trace := EE_read (scan_addr L 1) :: ee_trace e |})
    with (scan_flag L e) in *.
  assert (Htr' : ee_trace e' =
                 rev (map (fun j => EE_read (scan_addr L j)) (zrange 1 (S m)))
                 ++ ee_trace e).
  { rewrite Htr. cbn [ee_trace zrange map rev]. rewrite <- app_assoc.
    reflexivity. }
  assert (Hall' : forall j, 1 <= j <= Z.of_nat m ->
                            scan_flag L e j = scan_flag L e 1).
  { intros j Hj. destruct (Z.eq_dec j 1) as [->|Hne]; [reflexivity|].
    apply Hall. lia. }
  replace (1 + Z.of_nat m) with (Z.of_nat m + 1) in Hlast by lia.
  destruct (scan_flag L e (Z.of_nat m + 1) =? scan_flag L e 1) eqn:E.
  - destruct Hlast as (-> & ->).
    eexists _, _, (Z.to_nat (recs L - 1)). split; [reflexivity|].
    rewrite E. repeat split; try assumption; try lia.
  - rewrite Hlast.
    eexists _, _, m. split; [reflexivity|].
    rewrite E. cbn [Log_CurRec Log_CurReadRec Log_CurFlag Log_RecBuf wr_a wr_i
                    set_CurReadRec set_CurRec set_CurFlag].
    replace (Z.of_nat m + 1 - 1) with (Z.of_nat m) by lia.
    repeat split; try assumption; try lia.
    apply (ring_succ_mod L HL). lia.
Qed.

End Scan.

(** ** Walking the ring with the read cursor *)

Lemma zrange_In : forall n a k,
  In k (zrange a n) <-> a <= k < a + Z.of_nat n.
Proof.
  induction n as [|n IH]; intros a k.
  - cbn. lia.
  - cbn [zrange In]. rewrite IH. lia.
Qed.

Lemma zrange_snoc : forall n a,
  zrange a (S n) = zrange a n ++ [a + Z.of_nat n].
Proof.
  induction n as [|n IH]; intros a.
  - cbn. rewrite Z.add_0_r. reflexivity.
  - change (zrange a (S (S n))) with (a :: zrange (a + 1) (S n)).
    rewrite IH. cbn [zrange app]. do 3 f_equal. lia.
Qed.

Lemma zrange_shift : forall n a,
  zrange (a + 1) n = map (fun j => j + 1) (zrange a n).
Proof.
  induction n as [|n IH]; intros a; [reflexivity|].
  cbn [zrange map]. rewrite IH. reflexivity.
Qed.

Lemma rev_zrange : forall n a,
  rev (zrange a n) = map (fun j => 2 * a + Z.of_nat n - 1 - j) (zrange a n).
Proof.
  induction n as [|n IH]; intros a; [reflexivity|].
  rewrite zrange_snoc at 2. rewrite map_app.
  cbn [zrange rev map]. rewrite IH, zrange_shift, map_map.
  f_equal; [|f_equal; lia].
  apply map_ext. intros j. lia.
Qed.

Lemma slot_record_cells : forall L e e' r,
  ee_cells e' = ee_cells e -> slot_record L e' r = slot_record L e r.
Proof. intros L e e' r H. unfold slot_record. rewrite H. reflexivity. Qed.

Lemma delivers_snapshot : forall L e r dst dst',
  valid_logger L -> delivers L e r dst dst' ->
  snapshot (rec_size L) dst' = slot_record L e r.
Proof.
  intros L e r dst dst' [_ HS] (Hin & Hlast & _ & _).
  unfold snapshot, slot_record. apply map_ext_in. intros k Hk.
  apply zrange_In in Hk. rewrite Z2Nat.id in Hk by lia.
  destruct (Z.eqb_spec k (rec_size L - 1)) as [->|Hne].
  - exact Hlast.
  - apply Hin. lia.
Qed.

Lemma ring_offset_neq : forall n w j,
  0 <= w < n -> 1 <= j <= n - 1 -> (w + j) mod n <> w.
Proof.
  intros n w j Hw Hj. destruct (Z.lt_ge_cases (w + j) n) as [Hlt|Hge].
  - rewrite Z.mod_small by lia. lia.
  - rewrite <- (Z.mod_unique (w + j) n 1 (w + j - n)) by lia. lia.
Qed.

Section Traversal.

Variable L : logger.
Hypothesis HL : valid_logger L.

(** With the read cursor [j0] slots after the write cursor,
    [Log_ReadNext] delivers the slots [j0 + 1 .. recs - 1] after the
    write cursor and then returns 0. *)
Lemma next_until_fail_walk : forall (n fuel : nat) e st dst j0,
  0 <= Log_CurRec st < recs L ->
  1 <= j0 -> j0 + Z.of_nat n = recs L - 1 ->
  Log_CurReadRec st = (Log_CurRec st + j0) mod recs L ->
  (n < fuel)%nat ->
  exists e' st' dst',
    next_until_fail L fuel e st dst =
      Some (map (fun j => ((Log_CurRec st + j) mod recs L,
                           slot_record L e ((Log_CurRec st + j) mod recs L)))
                (zrange (j0 + 1) n), e', st', dst').
Proof.
  assert (HN : 2 <= recs L <= 255) by (destruct HL; assumption).
  induction n as [|n IH]; intros fuel e st dst j0 Hw Hj0 Hn Hrd Hfuel;
    (destruct fuel as [|fuel]; [lia|]);
    cbn [next_until_fail]; unfold ReadNext;
    rewrite (ring_succ_mod L HL)
      by (rewrite Hrd; apply Z.mod_pos_bound; lia);
    rewrite Hrd, Zplus_mod_idemp_l.
  - replace (Log_CurRec st + j0 + 1) with (Log_CurRec st + 1 * recs L)
      by lia.
    rewrite Z_mod_plus_full, Z.mod_small, Z.eqb_refl by lia.
    cbn [Z.eqb zrange map]. eexists _, _, _. reflexivity.
  - destruct (Z.eqb_spec ((Log_CurRec st + j0 + 1) mod recs L) (Log_CurRec st))
      as [E|_].
    { rewrite <- Z.add_assoc in E. apply ring_offset_neq in E; [easy|lia|lia]. }
    destruct (ReadRec_delivers L HL e dst
                ((Log_CurRec st + j0 + 1) mod recs L))
      as (e1 & dst1 & -> & Hcells & Hd).
    cbn [Z.eqb].
    destruct (IH fuel e1
                (set_CurReadRec st ((Log_CurRec st + j0 + 1) mod recs L))
                dst1 (j0 + 1)) as (e' & st' & dst' & ->);
      cbn [Log_CurRec Log_CurReadRec set_CurReadRec];
      try lia; try (f_equal; lia).
    exists e', st', dst'. cbn [zrange map]. rewrite Z.add_assoc.
    rewrite (delivers_snapshot L e _ dst dst1 HL Hd).
    rewrite (map_ext _ _ (fun j => f_equal (pair _)
                            (slot_record_cells L e e1 _ Hcells))).
    reflexivity.
Qed.

(** The same for [Log_ReadPrev], walking away from the write cursor in
    the other direction. *)
Lemma prev_until_fail_walk : forall (n fuel : nat) e st dst j0,
  0 <= Log_CurRec st < recs L ->
  1 <= j0 -> j0 + Z.of_nat n = recs L - 1 ->
  Log_CurReadRec st = (Log_CurRec st - j0) mod recs L ->
  (n < fuel)%nat ->
  exists e' st' dst',
    prev_until_fail L fuel e st dst =
      Some (map (fun j => ((Log_CurRec st - j) mod recs L,
                           slot_record L e ((Log_CurRec st - j) mod recs L)))
                (zrange (j0 + 1) n), e', st', dst').
Proof.
  assert (HN : 2 <= recs L <= 255) by (destruct HL; assumption).
  assert (Hback : forall w j, (w - j) mod recs L
                              = (w + (recs L - j)) mod recs L).
  { intros w j. replace (w + (recs L - j)) with (w - j + 1 * recs L) by lia.
    rewrite Z_mod_plus_full. reflexivity. }
  induction n as [|n IH]; intros fuel e st dst j0 Hw Hj0 Hn Hrd Hfuel;
    (destruct fuel as [|fuel]; [lia|]);
    cbn [prev_until_fail]; unfold ReadPrev;
    rewrite (ring_pred_mod L HL)
      by (rewrite Hrd; apply Z.mod_pos_bound; lia);
    rewrite Hrd, Zminus_mod_idemp_l.
  - replace (Log_CurRec st - j0 - 1) with (Log_CurRec st + (-1) * recs L)
      by lia.
    rewrite Z_mod_plus_full, Z.mod_small, Z.eqb_refl by lia.
    cbn [Z.eqb zrange map]. eexists _, _, _. reflexivity.
  - destruct (Z.eqb_spec ((Log_CurRec st - j0 - 1) mod recs L) (Log_CurRec st))
      as [E|_].
    { replace (Log_CurRec st - j0 - 1) with (Log_CurRec st - (j0 + 1)) in E
        by lia.
      rewrite Hback in E. apply ring_offset_neq in E; [easy|lia|lia]. }
    destruct (ReadRec_delivers L HL e dst
                ((Log_CurRec st - j0 - 1) mod recs L))
      as (e1 & dst1 & -> & Hcells & Hd).
    cbn [Z.eqb].
    destruct (IH fuel e1
                (set_CurReadRec st ((Log_CurRec st - j0 - 1) mod recs L))
                dst1 (j0 + 1)) as (e' & st' & dst' & ->);
      cbn [Log_CurRec Log_CurReadRec set_CurReadRec];
      try lia; try (f_equal; lia).
    exists e', st', dst'. cbn [zrange map]. rewrite Z.sub_add_distr.
    rewrite (delivers_snapshot L e _ dst dst1 HL Hd).
    rewrite (map_ext _ _ (fun j => f_equal (pair _)
                            (slot_record_cells L e e1 _ Hcells))).
    reflexivity.
Qed.

(** Forward traversal: whatever the medium holds, [Log_ReadFirst] and
    then [Log_ReadNext] until it returns 0 deliver the [recs - 1] slots
    after the write cursor in ring order, each once. *)
Lemma read_forward_ring : forall e st dst,
  0 <= Log_CurRec st < recs L ->
  read_forward L e st dst =
    Some (map (fun j => ((Log_CurRec st + j) mod recs L,
                         slot_record L e ((Log_CurRec st + j) mod recs L)))
              (zrange 1 (Z.to_nat (recs L - 1)))).
Proof.
  intros e st dst Hw.
  assert (HN : 2 <= recs L <= 255) by (destruct HL; assumption).
  unfold read_forward, ReadFirst.
  rewrite (ring_succ_mod L HL) by exact Hw.
  destruct (ReadRec_delivers L HL e dst ((Log_CurRec st + 1) mod recs L))
    as (e1 & dst1 & -> & Hcells & Hd).
  destruct (next_until_fail_walk (Z.to_nat (recs L - 2)) loop_fuel e1
              (set_CurReadRec st ((Log_CurRec st + 1) mod recs L)) dst1 1)
    as (e' & st' & dst' & ->);
    cbn [Log_CurRec Log_CurReadRec set_CurReadRec];
    try lia; try reflexivity; [unfold loop_fuel; lia|].
  replace (Z.to_nat (recs L - 1)) with (S (Z.to_nat (recs L - 2))) by lia.
  cbn [zrange map].
  rewrite (delivers_snapshot L e _ dst dst1 HL Hd).
  rewrite (map_ext _ _ (fun j => f_equal (pair _)
                          (slot_record_cells L e e1 _ Hcells))).
  reflexivity.
Qed.

(** Backward traversal: [Log_ReadLast] and then [Log_ReadPrev] until it
    returns 0 deliver the [recs - 1] slots before the write cursor,
    nearest first. *)
Lemma read_backward_ring : forall e st dst,
  0 <= Log_CurRec st < recs L ->
  read_backward L e st dst =
    Some (map (fun j => ((Log_CurRec st - j) mod recs L,
                         slot_record L e ((Log_CurRec st - j) mod recs L)))
              (zrange 1 (Z.to_nat (recs L - 1)))).
Proof.
  intros e st dst Hw.
  assert (HN : 2 <= recs L <= 255) by (destruct HL; assumption).
  unfold read_backward, ReadLast.
  rewrite (ring_pred_mod L HL) by exact Hw.
  destruct (ReadRec_delivers L HL e dst ((Log_CurRec st - 1) mod recs L))
    as (e1 & dst1 & -> & Hcells & Hd).
  destruct (prev_until_fail_walk (Z.to_nat (recs L - 2)) loop_fuel e1
              (set_CurReadRec st ((Log_CurRec st - 1) mod recs L)) dst1 1)
    as (e' & st' & dst' & ->);
    cbn [Log_CurRec Log_CurReadRec set_CurReadRec];
    try lia; try reflexivity; [unfold loop_fuel; lia|].
  replace (Z.to_nat (recs L - 1)) with (S (Z.to_nat (recs L - 2))) by lia.
  cbn [zrange map].
  rewrite (delivers_snapshot L e _ dst dst1 HL Hd).
  rewrite (map_ext _ _ (fun j => f_equal (pair _)
                          (slot_record_cells L e e1 _ Hcells))).
  reflexivity.
Qed.

(** The two traversals deliver the same [recs - 1] slots, one in the
    reverse order of the other, and never the slot at the write cursor. *)
Lemma traversals_mirror : forall e st dst,
  0 <= Log_CurRec st < recs L ->
  exists l,
    read_forward L e st dst = Some l /\
    read_backward L e st dst = Some (rev l) /\
    Z.of_nat (length l) = recs L - 1 /\
    ~ In (Log_CurRec st) (map fst l).
Proof.
  intros e st dst Hw.
  assert (HN : 2 <= recs L <= 255) by (destruct HL; assumption).
  eexists. split; [apply read_forward_ring; exact Hw|].
  split; [|split].
  - rewrite read_backward_ring by exact Hw. f_equal.
    rewrite <- map_rev, rev_zrange, map_map.
    apply map_ext_in. intros j Hj. apply zrange_In in Hj.
    rewrite Z2Nat.id by lia.
    replace (Log_CurRec st + (2 * 1 + (recs L - 1) - 1 - j))
      with (Log_CurRec st - j + 1 * recs L) by lia.
    rewrite Z_mod_plus_full. reflexivity.
  - rewrite length_map.
    assert (Hlen : forall n a, length (zrange a n) = n).
    { induction n as [|n IH]; intros a; [reflexivity|].
      cbn [zrange length]. rewrite IH. reflexivity. }
    rewrite Hlen. lia.
  - rewrite map_map. cbn [fst]. intros Hin. apply in_map_iff in Hin.
    destruct Hin as (j & Hj & Hin). apply zrange_In in Hin.
    apply ring_offset_neq in Hj; [easy|lia|lia].
Qed.

End Traversal.

(** ** Records written and read back *)

(** Storing a byte under a flag and clearing bit 7 again gives the low
    seven bits of the byte. *)
Lemma strip_flag : forall f y,
  (f = 0 \/ f = LOG_FLAG_MASK) -> 0 <= y < 256 ->
  Z.land 127 (u8 (u8 (Z.lor f (u8 (Z.land y LOG_PAYLOAD_MASK)))))
  = Z.land 127 y.
Proof.
  intros f y Hf Hy.
  assert (H : forallb
                (fun y =>
                   (Z.land 127 (u8 (u8 (Z.lor 0 (u8 (Z.land y LOG_PAYLOAD_MASK)))))
                    =? Z.land 127 y) &&
                   (Z.land 127
                      (u8 (u8 (Z.lor LOG_FLAG_MASK
                                     (u8 (Z.land y LOG_PAYLOAD_MASK)))))
                    =? Z.land 127 y))
                (zrange 0 256) = true) by (vm_compute; reflexivity).
  rewrite forallb_forall in H. specialize (H y).
  rewrite zrange_In in H. specialize (H ltac:(lia)).
  apply andb_prop in H. destruct H as [H0 H1].
  destruct Hf as [-> | ->]; apply Z.eqb_eq; assumption.
Qed.

Lemma ring_mod_neq : forall n a b,
  0 < n -> 1 <= a - b <= n - 1 -> a mod n <> b mod n.
Proof.
  intros n a b Hn Hab H.
  assert (E : (a - b) mod n = 0).
  { rewrite Zminus_mod, H, Z.sub_diag. apply Z.mod_0_l. lia. }
  rewrite Z.mod_small in E by lia. lia.
Qed.

Lemma zrange_app : forall n m a,
  zrange a (n + m) = zrange a n ++ zrange (a + Z.of_nat n) m.
Proof.
  induction n as [|n IH]; intros m a.
  - cbn. rewrite Z.add_0_r. reflexivity.
  - cbn [Nat.add zrange app]. rewrite IH. do 3 f_equal. lia.
Qed.

Lemma zrange_offset : forall n a c,
  zrange (a + c) n = map (fun j => j + c) (zrange a n).
Proof.
  induction n as [|n IH]; intros a c; [reflexivity|].
  cbn [zrange map]. f_equal.
  replace (a + c + 1) with (a + 1 + c) by lia. apply IH.
Qed.

Section ReadBack.

Variable L : logger.
Hypothesis HL : valid_logger L.
Hypothesis HR : region_fits L.

(** After a transfer the slot written holds the record, and every other
    slot what it held. *)
Lemma transfer_slot_records : forall s e e' w f,
  0 <= w < recs L -> (f = 0 \/ f = LOG_FLAG_MASK) ->
  slot_bytes_stored L w f s 0 (Z.to_nat (rec_size L)) e e' ->
  slot_record L e' w = decoded L s /\
  forall x, 0 <= x < recs L -> x <> w ->
            slot_record L e' x = slot_record L e x.
Proof.
  intros s e e' w f Hw Hf (Hin & Hout).
  assert (HS : 2 <= rec_size L <= 255) by (destruct HL; assumption).
  rewrite Z2Nat.id in Hin, Hout by lia.
  split.
  - unfold slot_record, decoded. apply map_ext_in. intros k Hk.
    apply zrange_In in Hk. rewrite Z2Nat.id in Hk by lia.
    rewrite Hin by lia. unfold stored_byte.
    destruct (Z.eqb_spec k (rec_size L - 1)) as [->|_].
    + apply strip_flag; [exact Hf|apply u8_range].
    + apply u8_idem.
  - intros x Hx Hne. unfold slot_record. apply map_ext_in. intros k Hk.
    apply zrange_In in Hk. rewrite Z2Nat.id in Hk by lia.
    rewrite Hout; [reflexivity|].
    intros k' Hk'. rewrite !(slot_addr_exact L HL HR) by lia. nia.
Qed.

(** [k <= recs] records written from write cursor [w] on: the [i]-th of
    them is in slot [(w + i) mod recs], the other slots hold what they
    held. *)
Lemma transfers_slot_records : forall srcs e st e' sts,
  consistent L st ->
  Z.of_nat (length srcs) <= recs L ->
  transfers L srcs e st = Some (e', sts) ->
  (forall i : nat, (i < length srcs)%nat ->
     slot_record L e' ((Log_CurRec st + Z.of_nat i) mod recs L)
     = decoded L (nth i srcs zeros)) /\
  (forall x, 0 <= x < recs L ->
     (forall i : nat, (i < length srcs)%nat ->
                      x <> (Log_CurRec st + Z.of_nat i) mod recs L) ->
     slot_record L e' x = slot_record L e x).
Proof.
  assert (HN : 2 <= recs L <= 255) by (destruct HL; assumption).
  induction srcs as [|s srcs IH]; intros e st e' sts Hc Hlen Hrun.
  - injection Hrun as <- <-. split; [intros i Hi; cbn in Hi; lia|].
    reflexivity.
  - cbn [transfers] in Hrun. cbn [length] in Hlen.
    destruct (transfer_step L HL HR s e st Hc)
      as (e1 & st1 & Hstep & _ & Hst & Hfin & Hc1).
    rewrite Hstep in Hrun.
    destruct (transfers L srcs e1 st1) as [[e2 sts2]|] eqn:Hrest;
      [|discriminate].
    injection Hrun as <- <-.
    pose proof Hc as ((Hw & _) & Hf & _).
    destruct (transfer_slot_records s e e1 _ _ Hw Hf Hst) as (Hnew & Hold).
    destruct (IH e1 st1 e2 sts2 Hc1 ltac:(lia) Hrest) as (Hin & Hout).
    assert (Hw1 : Log_CurRec st1 = (Log_CurRec st + 1) mod recs L).
    { destruct Hfin as (_ & _ & -> & _).
      rewrite <- (ring_succ_mod L HL) by exact Hw.
      symmetry. apply (ring_succ_cases L HL). exact Hw. }
    assert (Hshift : forall i : nat,
              (Log_CurRec st1 + Z.of_nat i) mod recs L
              = (Log_CurRec st + Z.of_nat (S i)) mod recs L).
    { intros i. rewrite Hw1, Zplus_mod_idemp_l. f_equal. lia. }
    split.
    + intros [|i] Hi.
      * cbn [nth Z.of_nat]. rewrite Z.add_0_r, Z.mod_small by lia.
        rewrite Hout; [exact Hnew|exact Hw|].
        intros i Hi'. rewrite Hshift.
        intros E. symmetry in E. revert E.
        apply ring_offset_neq; lia.
      * cbn [nth]. rewrite <- Hshift. apply Hin. cbn [length] in Hi. lia.
    + intros x Hx Hfree. rewrite Hout.
      * apply Hold; [exact Hx|].
        specialize (Hfree O ltac:(cbn [length]; lia)).
        cbn [Z.of_nat] in Hfree.
        rewrite Z.add_0_r, Z.mod_small in Hfree by lia. exact Hfree.
      * exact Hx.
      * intros i Hi. rewrite Hshift. apply Hfree. cbn [length]. lia.
Qed.

(** With the write cursor where the writer left it, [k <= recs - 1]
    records written to a consistent log are read back in write order:
    the forward traversal delivers the [recs - 1 - k] oldest slots it had
    before and then the [k] records written, oldest first. *)
Lemma written_records_read_forward : forall srcs e st e' sts dst,
  consistent L st ->
  Z.of_nat (length srcs) <= recs L - 1 ->
  transfers L srcs e st = Some (e', sts) ->
  read_forward L e' (last sts st) dst =
    Some (map (fun j =>
                 let x := (Log_CurRec st + Z.of_nat (length srcs) + j)
                            mod recs L in
                 (x, slot_record L e x))
              (zrange 1 (Z.to_nat (recs L - 1) - length srcs))
          ++ map (fun i => ((Log_CurRec st + i) mod recs L,
                            decoded L (nth (Z.to_nat i) srcs zeros)))
                 (zrange 0 (length srcs))).
Proof.
  intros srcs e st e' sts dst Hc Hlen Hrun.
  assert (HN : 2 <= recs L <= 255) by (destruct HL; assumption).
  pose proof Hc as ((Hw & _) & _).
  destruct (transfers_wrap_count L HL HR srcs e st Hc)
    as (e2 & sts2 & Hrun2 & _ & Hall & Hcr & _).
  rewrite Hrun in Hrun2. injection Hrun2 as <- <-.
  destruct (transfers_slot_records srcs e st e' sts Hc ltac:(lia) Hrun)
    as (Hin & Hout).
  rewrite (read_forward_ring L HL)
    by (rewrite Hcr; apply Z.mod_pos_bound; lia).
  rewrite Hcr. f_equal.
  replace (Z.to_nat (recs L - 1))
    with ((Z.to_nat (recs L - 1) - length srcs) + length srcs)%nat at 1
    by lia.
  rewrite zrange_app, map_app. f_equal.
  - apply map_ext_in. intros j Hj. apply zrange_In in Hj. cbv zeta.
    rewrite Zplus_mod_idemp_l. f_equal.
    apply Hout; [apply Z.mod_pos_bound; lia|].
    intros i Hi. apply ring_mod_neq; lia.
  - replace (1 + Z.of_nat (Z.to_nat (recs L - 1) - length srcs))
      with (0 + (recs L - Z.of_nat (length srcs))) by lia.
    rewrite zrange_offset, map_map.
    apply map_ext_in. intros i Hi. apply zrange_In in Hi.
    rewrite Zplus_mod_idemp_l.
    replace (Log_CurRec st + Z.of_nat (length srcs)
             + (i + (recs L - Z.of_nat (length srcs))))
      with (Log_CurRec st + i + 1 * recs L) by lia.
    rewrite Z_mod_plus_full.
    f_equal.
    rewrite <- (Hin (Z.to_nat i)) by lia.
    rewrite Z2Nat.id by lia. reflexivity.
Qed.

End ReadBack.

(** ** The scan against the slots' flag bytes *)

(** C8 fails on the code: on the logger with 3 slots of 2 bytes at 16
    and the all-zero medium, [Log_InitLog] reads the addresses 18, 20 and
    22.  None of them is the last byte of a slot (those are 17, 19, 21),
    and 22 lies behind the region 16..21.  The scan starts at
    [start_addr + rec_size] where the flag byte of slot 0 is at
    [start_addr + rec_size - 1]. *)
Theorem init_reads_first_bytes :
  option_map (fun r => reads_of (ee_trace (fst r))) (restart small blank)
    = Some [18; 20; 22] /\
  map (is_flag_addr small) [18; 20; 22] = [false; false; false] /\
  map (in_region small) [18; 20; 22] = [true; true; false] /\
  map (fun r => slot_addr small r (rec_size small - 1)) [0; 1; 2]
    = [17; 19; 21].
Proof. repeat split; vm_compute; reflexivity. Qed.

(** C2 fails on the code: on the medium [00 80 | 00 00 | 80 00] the flags
    of slot 0 and slot 1 differ (0x80 and 0), and the scan returns at
    [cr = 1] with write cursor 1 and read cursor 2, but the flag variable
    is 0, bit 7 of the byte at address 18 (the first byte of slot 1),
    where the flag of slot 0 is 0x80. *)
Theorem init_flag_not_from_slot_0 :
  map (slot_flag small two_flags_medium) [0; 1; 2] = [128; 0; 0] /\
  option_map (fun r => (Log_CurRec (snd r), Log_CurReadRec (snd r),
                        Log_CurFlag (snd r), reads_of (ee_trace (fst r))))
             (restart small two_flags_medium)
    = Some (1, 2, 0, [18; 20]).
Proof. split; vm_compute; reflexivity. Qed.

(** C1 fails on the code: the ring in use has its write cursor at slot
    0 and the same flag in all four slots; power is lost after one or two
    bytes of the fifth record have been issued to slot 0.  The restart
    puts the write cursor at 1, not 0, and a forward traversal delivers
    slots 2, 3 and 0, the last one with the half-written record. *)
Theorem power_loss_slot_not_recovered :
  option_map (fun r => (fst r, cells_from (snd r) 16 12)) (interrupted_write 1)
    = Some (0, [5; 11; 149; 2; 12; 150; 131; 13; 151; 4; 14; 152]) /\
  option_map (fun r => (fst r, cells_from (snd r) 16 12)) (interrupted_write 2)
    = Some (0, [5; 15; 149; 2; 12; 150; 131; 13; 151; 4; 14; 152]) /\
  option_map (fun r => map (slot_flag demo (snd r)) [0; 1; 2; 3])
             (interrupted_write 2)
    = Some [128; 128; 128; 128] /\
  option_map (fun r => (Log_CurRec (fst r), snd r)) (after_power_loss 1)
    = Some (1, [(2, [131; 13; 23]); (3, [4; 14; 24]); (0, [5; 11; 21])]) /\
  option_map (fun r => (Log_CurRec (fst r), snd r)) (after_power_loss 2)
    = Some (1, [(2, [131; 13; 23]); (3, [4; 14; 24]); (0, [5; 15; 21])]).
Proof. repeat split; vm_compute; reflexivity. Qed.

(** C3 fails on the code: four records written to the ring of 4 slots
    leave the write cursor at 0; read with the variables as the writer
    left them the traversals deliver records 2, 3, 4 and 4, 3, 2.  After
    a new scan of the same medium the write cursor is 1: the forward
    traversal delivers records 3, 4 and then the oldest record 1; and
    with a fifth record written after the scan it delivers 4, 1, 5,
    record 2 being overwritten and record 3 left out. *)
Theorem rescanned_ring_out_of_order :
  option_map (fun r => (cells_from (fst r) 16 12, Log_CurRec (snd r),
                        traversals demo (fst r) (snd r))) ring_in_use
    = Some ([1; 11; 149; 2; 12; 150; 131; 13; 151; 4; 14; 152], 0,
            Some ([(1, [2; 12; 22]); (2, [131; 13; 23]); (3, [4; 14; 24])],
                  [(3, [4; 14; 24]); (2, [131; 13; 23]); (1, [2; 12; 22])]))
  /\
  rescanned_then_written []
    = Some ([(2, [131; 13; 23]); (3, [4; 14; 24]); (0, [1; 11; 21])],
            [(0, [1; 11; 21]); (3, [4; 14; 24]); (2, [131; 13; 23])]) /\
  rescanned_then_written [fifth_record]
    = Some ([(3, [4; 14; 24]); (0, [1; 11; 21]); (1, [5; 15; 25])],
            [(1, [5; 15; 25]); (0, [1; 11; 21]); (3, [4; 14; 24])]).
Proof. repeat split; vm_compute; reflexivity. Qed.

(** ** The ring steps *)

Lemma ring_steps_move : forall L, valid_logger L ->
  forall r, 0 <= r < recs L -> ring_succ L r <> r /\ ring_pred L r <> r.
Proof.
  intros L HL r Hr. pose proof HL as [HN _]. split.
  - rewrite (ring_succ_cases L HL) by exact Hr.
    destruct (Z.eqb_spec r (recs L - 1)); lia.
  - rewrite (ring_pred_cases L HL) by exact Hr.
    destruct (Z.eqb_spec r 0); lia.
Qed.

(** X1: for a cursor in [0, recs) the two unsigned-char step idioms,
    [if ( r -= (recs)-1 ) r += (recs)] and [if ( r ) --r; else r = (recs)-1],
    compute [(r + 1) mod recs] and [(r - 1) mod recs]; they undo each
    other and neither leaves the cursor where it was. *)
Theorem ring_steps_modular :
  forall L, valid_logger L ->
  forall r, 0 <= r < recs L ->
    ring_succ L r = (r + 1) mod recs L /\
    ring_pred L r = (r - 1) mod recs L /\
    ring_pred L (ring_succ L r) = r /\
    ring_succ L (ring_pred L r) = r /\
    ring_succ L r <> r /\ ring_pred L r <> r.
Proof.
  intros L HL r Hr. pose proof HL as [HN _].
  split; [apply ring_succ_mod; assumption|].
  split; [apply ring_pred_mod; assumption|].
  split; [apply ring_pred_succ; assumption|].
  split; [apply ring_succ_pred; assumption|].
  split.
  - rewrite (ring_succ_cases L HL) by exact Hr.
    destruct (Z.eqb_spec r (recs L - 1)); lia.
  - rewrite (ring_pred_cases L HL) by exact Hr.
    destruct (Z.eqb_spec r 0); lia.
Qed.

(** At the last slot of the demo logger. *)
Lemma ring_steps_modular_witness :
  0 <= 3 < recs demo /\
  ring_succ demo 3 = (3 + 1) mod recs demo /\
  ring_pred demo 3 = (3 - 1) mod recs demo /\
  ring_pred demo (ring_succ demo 3) = 3 /\
  ring_succ demo (ring_pred demo 3) = 3 /\
  ring_succ demo 3 <> 3 /\ ring_pred demo 3 <> 3.
Proof.
  assert (H : 0 <= 3 < recs demo) by (simpl; lia).
  split; [exact H|]. exact (ring_steps_modular demo valid_demo 3 H).
Defined.

(** ** What [Log_InitLog] leaves behind *)

(** X2: [Log_InitLog] returns for every medium, whatever it holds, and
    leaves a consistent log state when no record is in transfer: both
    cursors are slot indices, the read cursor is the slot after the write
    cursor (so never the write cursor itself) and the flag variable is 0
    or 0x80.  It issues no write and changes no cell of the medium. *)
Theorem init_leaves_consistent_state :
  forall L, valid_logger L ->
  forall e st, at_rest L st ->
  exists e' st',
    InitLog L e st = Some (e', st') /\
    ee_cells e' = ee_cells e /\
    consistent L st' /\
    Log_CurReadRec st' = (Log_CurRec st' + 1) mod recs L /\
    cursor_apart L st'.
Proof.
  intros L HL e st Hrest. pose proof HL as [HN _].
  destruct (InitLog_scan L HL e st)
    as (e' & st' & m & Hrun & Hcells & Hm & _ & _ & Hcase & _ & Ha & Hi).
  exists e', st'. split; [exact Hrun|]. split; [exact Hcells|].
  assert (Hf1 : scan_flag L e 1 = 0 \/ scan_flag L e 1 = LOG_FLAG_MASK)
    by apply land_flag_cases.
  assert (Hfacts :
    0 <= Log_CurRec st' < recs L /\
    Log_CurReadRec st' = (Log_CurRec st' + 1) mod recs L /\
    (Log_CurFlag st' = 0 \/ Log_CurFlag st' = LOG_FLAG_MASK)).
  { destruct (scan_flag L e (Z.of_nat m + 1) =? scan_flag L e 1).
    - destruct Hcase as (_ & -> & -> & ->).
      split; [lia|]. split; [rewrite Z.mod_small; lia|].
      unfold LOG_FLAG_MASK in *.
      destruct Hf1 as [-> | ->]; [right|left]; reflexivity.
    - destruct Hcase as (-> & -> & ->).
      split; [lia|]. split; [reflexivity|exact Hf1]. }
  destruct Hfacts as (Hw & Hrd & Hf).
  assert (Hrd' : 0 <= Log_CurReadRec st' < recs L)
    by (rewrite Hrd; apply Z.mod_pos_bound; lia).
  assert (Hne : Log_CurReadRec st' <> Log_CurRec st')
    by (rewrite Hrd; apply ring_offset_neq; lia).
  split; [|split; [exact Hrd|]].
  - split; [split; assumption|]. split; [exact Hf|].
    unfold at_rest in *. rewrite Ha, Hi. exact Hrest.
  - split; [split; assumption|exact Hne].
Qed.

Lemma rest_at_boot : forall L, at_rest L boot_state.
Proof. intros L. left. reflexivity. Defined.

(** Start-up of the demo logger on the all-zero medium. *)
Lemma init_leaves_consistent_state_witness :
  at_rest demo boot_state /\
  exists e' st',
    InitLog demo blank boot_state = Some (e', st') /\
    ee_cells e' = ee_cells blank /\
    consistent demo st' /\
    Log_CurReadRec st' = (Log_CurRec st' + 1) mod recs demo /\
    cursor_apart demo st'.
Proof.
  split; [exact (rest_at_boot demo)|].
  exact (init_leaves_consistent_state demo valid_demo blank boot_state
           (rest_at_boot demo)).
Defined.

(** X3: what decides [Log_InitLog].  It reads the bytes at
    [start_addr + j * rec_size] for [j = 1 .. m + 1] and nothing else,
    where bytes 1 to [m] agree in bit 7 and [m <= recs - 1].  When byte
    [m + 1] differs from byte 1 in bit 7 the write cursor becomes [m],
    the read cursor [(m + 1) mod recs] and the flag variable bit 7 of
    byte 1; when all [recs] bytes agree the write cursor becomes 0, the
    read cursor 1 and the flag variable the inverse of that bit.  The
    writer's variables keep their values. *)
Theorem init_decided_by_scanned_bytes :
  forall L, valid_logger L ->
  forall e st,
  exists e' st' (m : nat),
    InitLog L e st = Some (e', st') /\
    1 <= Z.of_nat m <= recs L - 1 /\
    ee_trace e' =
      rev (map (fun j => EE_read (scan_addr L j)) (zrange 1 (S m)))
      ++ ee_trace e /\
    (forall j, 1 <= j <= Z.of_nat m -> scan_flag L e j = scan_flag L e 1) /\
    (if scan_flag L e (Z.of_nat m + 1) =? scan_flag L e 1
     then Z.of_nat m = recs L - 1 /\
          Log_CurRec st' = 0 /\ Log_CurReadRec st' = 1 /\
          Log_CurFlag st' = u8 (Z.lxor (scan_flag L e 1) LOG_FLAG_MASK)
     else Log_CurRec st' = Z.of_nat m /\
          Log_CurReadRec st' = (Z.of_nat m + 1) mod recs L /\
          Log_CurFlag st' = scan_flag L e 1) /\
    Log_RecBuf st' = Log_RecBuf st /\ wr_a st' = wr_a st /\
    wr_i st' = wr_i st.
Proof.
  intros L HL e st.
  destruct (InitLog_scan L HL e st)
    as (e' & st' & m & Hrun & _ & Hm & Htr & Hall & Hcase & Hrest).
  exists e', st', m.
  split; [exact Hrun|]. split; [exact Hm|]. split; [exact Htr|].
  split; [exact Hall|]. split; [exact Hcase|exact Hrest].
Qed.

(** Start-up of the demo logger on the all-zero medium. *)
Lemma init_decided_by_scanned_bytes_witness :
  valid_logger demo /\
  exists e' st' (m : nat),
    InitLog demo blank boot_state = Some (e', st') /\
    1 <= Z.of_nat m <= recs demo - 1 /\
    ee_trace e' =
      rev (map (fun j => EE_read (scan_addr demo j)) (zrange 1 (S m)))
      ++ ee_trace blank.
Proof.
  split; [exact valid_demo|].
  destruct (init_decided_by_scanned_bytes demo valid_demo blank boot_state)
    as (e' & st' & m & Hrun & Hm & Htr & _).
  exists e', st', m. auto.
Defined.

(** ** What the reading operations touch *)

Section ReadFrame.

Variable L : logger.
Hypothesis HL : valid_logger L.

Lemma ReadRec_loop_reads : forall (n fuel : nat) e dst k a0 c e' dst' k' a',
  (1 <= n)%nat -> (n <= fuel)%nat -> Z.of_nat n <= 255 ->
  ReadRec_loop L fuel e dst k (uint L (a0 + c)) (Z.of_nat n)
    = Some (e', dst', k', a') ->
  ee_trace e' =
    rev (map (fun j => EE_read (uint L (a0 + j))) (zrange c n)) ++ ee_trace e.
Proof.
  induction n as [|m IH];
    intros fuel e dst k a0 c e' dst' k' a' Hn Hfuel Hmax Hrun; [lia|].
  destruct fuel as [|fuel]; [lia|].
  cbn [ReadRec_loop ReadEE] in Hrun.
  assert (E : u8 (Z.of_nat (S m) - 1) = Z.of_nat m)
    by (rewrite u8_small; lia).
  rewrite E, uint_add_l in Hrun.
  destruct m as [|m'].
  - cbn [Z.of_nat Z.eqb] in Hrun. injection Hrun as <- _ _ _.
    reflexivity.
  - destruct (Z.eqb_spec (Z.of_nat (S m')) 0) as [H0|_]; [lia|].
    replace (a0 + c + 1) with (a0 + (c + 1)) in Hrun by lia.
    apply IH in Hrun; [|lia|lia|lia]. rewrite Hrun. cbn [ee_trace].
    change (zrange c (S (S m'))) with (c :: zrange (c + 1) (S m')).
    cbn [map rev]. rewrite <- app_assoc. reflexivity.
Qed.

(** [Log_ReadRec__] reads the [rec_size] bytes of the slot in ascending
    order, once each, and issues nothing else. *)
Lemma ReadRec_reads : forall e dst r,
  exists e' dst',
    ReadRec L e dst r = Some (e', dst') /\
    delivers L e r dst dst' /\
    reads_slot L r e e'.
Proof.
  intros e dst r. destruct HL as [_ HS].
  destruct (ReadRec_delivers L HL e dst r) as (e' & dst' & Hrun & Hcells & Hd).
  exists e', dst'. split; [exact Hrun|]. split; [exact Hd|].
  split; [exact Hcells|].
  unfold ReadRec in Hrun. rewrite uint_add_l in Hrun.
  assert (E : u8 (rec_size L - 1) = Z.of_nat (Z.to_nat (rec_size L - 1)))
    by (rewrite Z2Nat.id by lia; apply u8_small; lia).
  rewrite E in Hrun.
  destruct (ReadRec_loop_rounds L (Z.to_nat (rec_size L - 1)) loop_fuel e dst 0
              (start_addr L + r * rec_size L))
    as (e1 & dst1 & Hloop & _); [lia | unfold loop_fuel; lia | lia |].
  rewrite Hloop in Hrun. cbn [ReadEE] in Hrun. injection Hrun as <- _.
  replace (start_addr L + r * rec_size L)
    with (start_addr L + r * rec_size L + 0) in Hloop at 1 by lia.
  apply ReadRec_loop_reads in Hloop; [|lia|unfold loop_fuel; lia|lia].
  cbn [ee_trace]. rewrite Hloop. unfold slot_reads, slot_addr.
  replace (Z.to_nat (rec_size L)) with (S (Z.to_nat (rec_size L - 1))) by lia.
  rewrite zrange_snoc, map_app, rev_app_distr.
  cbn [map rev app]. rewrite Z.add_0_l. reflexivity.
Qed.

(** Reading the same slot again delivers the same record. *)
Lemma ReadRec_again : forall e dst r e1 dst1 dst2,
  ReadRec L e dst r = Some (e1, dst1) ->
  exists e2 dst2',
    ReadRec L e1 dst2 r = Some (e2, dst2') /\
    snapshot (rec_size L) dst2' = snapshot (rec_size L) dst1 /\
    snapshot (rec_size L) dst1 = slot_record L e r.
Proof.
  intros e dst r e1 dst1 dst2 Hrun.
  destruct (ReadRec_delivers L HL e dst r) as (e1' & dst1' & Hrun' & Hc & Hd).
  rewrite Hrun in Hrun'. injection Hrun' as <- <-.
  destruct (ReadRec_delivers L HL e1 dst2 r) as (e2 & dst2' & Hrun2 & _ & Hd2).
  exists e2, dst2'. split; [exact Hrun2|].
  rewrite (delivers_snapshot L e1 r dst2 dst2' HL Hd2).
  rewrite (delivers_snapshot L e r dst dst1 HL Hd).
  split; [apply slot_record_cells; exact Hc|reflexivity].
Qed.

End ReadFrame.

Lemma keeps_writer_side_read : forall st r,
  keeps_writer_side st (set_CurReadRec st r).
Proof. intros st r. repeat split. Qed.

Lemma keeps_writer_side_refl : forall st, keeps_writer_side st st.
Proof. intros st. repeat split. Qed.

(** X4: a reading operation that delivers a record issues exactly the
    [rec_size] reads of that slot's bytes, in ascending order, and no
    write; [Log_ReadNext] and [Log_ReadPrev] that return 0 issue nothing
    and change nothing.  No reading operation changes a cell of the
    medium, the write cursor, the flag variable or the writer's
    variables. *)
Theorem reads_touch_only_read_cursor :
  forall L, valid_logger L ->
  forall e st dst,
    (exists e' st' dst',
        ReadFirst L e st dst = Some (e', st', dst') /\
        reads_slot L (Log_CurReadRec st') e e' /\
        keeps_writer_side st st') /\
    (exists e' st' dst',
        ReadLast L e st dst = Some (e', st', dst') /\
        reads_slot L (Log_CurReadRec st') e e' /\
        keeps_writer_side st st') /\
    (exists e' dst',
        ReadCur L e st dst = Some (e', st, dst') /\
        reads_slot L (Log_CurReadRec st) e e') /\
    (exists ret e' st' dst',
        ReadNext L e st dst = Some (ret, e', st', dst') /\
        keeps_writer_side st st' /\
        if ret =? 0 then e' = e /\ st' = st /\ dst' = dst
        else reads_slot L (Log_CurReadRec st') e e') /\
    (exists ret e' st' dst',
        ReadPrev L e st dst = Some (ret, e', st', dst') /\
        keeps_writer_side st st' /\
        if ret =? 0 then e' = e /\ st' = st /\ dst' = dst
        else reads_slot L (Log_CurReadRec st') e e').
Proof.
  intros L HL e st dst. split; [|split; [|split; [|split]]].
  - unfold ReadFirst.
    destruct (ReadRec_reads L HL e dst (ring_succ L (Log_CurRec st)))
      as (e' & dst' & -> & _ & Hr).
    eexists _, _, _. split; [reflexivity|].
    split; [exact Hr|apply keeps_writer_side_read].
  - unfold ReadLast.
    destruct (ReadRec_reads L HL e dst (ring_pred L (Log_CurRec st)))
      as (e' & dst' & -> & _ & Hr).
    eexists _, _, _. split; [reflexivity|].
    split; [exact Hr|apply keeps_writer_side_read].
  - unfold ReadCur.
    destruct (ReadRec_reads L HL e dst (Log_CurReadRec st))
      as (e' & dst' & -> & _ & Hr).
    eexists _, _. split; [reflexivity|exact Hr].
  - unfold ReadNext.
    destruct (ring_succ L (Log_CurReadRec st) =? Log_CurRec st).
    + eexists _, _, _, _. split; [reflexivity|].
      split; [apply keeps_writer_side_refl|]. cbn [Z.eqb]. auto.
    + destruct (ReadRec_reads L HL e dst (ring_succ L (Log_CurReadRec st)))
        as (e' & dst' & -> & _ & Hr).
      eexists _, _, _, _. split; [reflexivity|].
      split; [apply keeps_writer_side_read|exact Hr].
  - unfold ReadPrev.
    destruct (ring_pred L (Log_CurReadRec st) =? Log_CurRec st).
    + eexists _, _, _, _. split; [reflexivity|].
      split; [apply keeps_writer_side_refl|]. cbn [Z.eqb]. auto.
    + destruct (ReadRec_reads L HL e dst (ring_pred L (Log_CurReadRec st)))
        as (e' & dst' & -> & _ & Hr).
      eexists _, _, _, _. split; [reflexivity|].
      split; [apply keeps_writer_side_read|exact Hr].
Qed.

(** [Log_ReadCur] on the demo logger at program start: three reads, of
    the bytes of slot 0. *)
Lemma reads_touch_only_read_cursor_witness :
  valid_logger demo /\
  exists e' dst',
    ReadCur demo blank boot_state zeros = Some (e', boot_state, dst') /\
    reads_slot demo (Log_CurReadRec boot_state) blank e'.
Proof.
  split; [exact valid_demo|].
  exact (proj1 (proj2 (proj2 (reads_touch_only_read_cursor demo valid_demo
                                blank boot_state zeros)))).
Defined.

(** X5: [Log_ReadCur] repeats the last record read: called after
    [Log_ReadFirst], [Log_ReadLast], another [Log_ReadCur], or a
    [Log_ReadNext] or [Log_ReadPrev] that returned nonzero, it delivers
    the same [rec_size] bytes again (into any destination) and leaves the
    variables as they are. *)
Theorem read_cur_repeats_last_read :
  forall L, valid_logger L ->
  forall e st dst dst2,
    (exists e1 st1 dst1 e2 dst2',
        ReadFirst L e st dst = Some (e1, st1, dst1) /\
        ReadCur L e1 st1 dst2 = Some (e2, st1, dst2') /\
        snapshot (rec_size L) dst2' = snapshot (rec_size L) dst1) /\
    (exists e1 st1 dst1 e2 dst2',
        ReadLast L e st dst = Some (e1, st1, dst1) /\
        ReadCur L e1 st1 dst2 = Some (e2, st1, dst2') /\
        snapshot (rec_size L) dst2' = snapshot (rec_size L) dst1) /\
    (exists e1 dst1 e2 dst2',
        ReadCur L e st dst = Some (e1, st, dst1) /\
        ReadCur L e1 st dst2 = Some (e2, st, dst2') /\
        snapshot (rec_size L) dst2' = snapshot (rec_size L) dst1) /\
    (exists ret e1 st1 dst1 e2 dst2',
        ReadNext L e st dst = Some (ret, e1, st1, dst1) /\
        ReadCur L e1 st1 dst2 = Some (e2, st1, dst2') /\
        if ret =? 0 then True
        else snapshot (rec_size L) dst2' = snapshot (rec_size L) dst1) /\
    (exists ret e1 st1 dst1 e2 dst2',
        ReadPrev L e st dst = Some (ret, e1, st1, dst1) /\
        ReadCur L e1 st1 dst2 = Some (e2, st1, dst2') /\
        if ret =? 0 then True
        else snapshot (rec_size L) dst2' = snapshot (rec_size L) dst1).
Proof.
  intros L HL e st dst dst2. split; [|split; [|split; [|split]]].
  - destruct (ReadRec_delivers L HL e dst (ring_succ L (Log_CurRec st)))
      as (e1 & dst1 & Hrun & _).
    destruct (ReadRec_again L HL _ _ _ _ _ dst2 Hrun) as (e2 & d2 & H2 & Hs & _).
    exists e1, (set_CurReadRec st (ring_succ L (Log_CurRec st))), dst1, e2, d2.
    unfold ReadFirst, ReadCur. rewrite Hrun.
    cbn [Log_CurReadRec set_CurReadRec]. rewrite H2.
    split; [reflexivity|]. split; [reflexivity|exact Hs].
  - destruct (ReadRec_delivers L HL e dst (ring_pred L (Log_CurRec st)))
      as (e1 & dst1 & Hrun & _).
    destruct (ReadRec_again L HL _ _ _ _ _ dst2 Hrun) as (e2 & d2 & H2 & Hs & _).
    exists e1, (set_CurReadRec st (ring_pred L (Log_CurRec st))), dst1, e2, d2.
    unfold ReadLast, ReadCur. rewrite Hrun.
    cbn [Log_CurReadRec set_CurReadRec]. rewrite H2.
    split; [reflexivity|]. split; [reflexivity|exact Hs].
  - destruct (ReadRec_delivers L HL e dst (Log_CurReadRec st))
      as (e1 & dst1 & Hrun & _).
    destruct (ReadRec_again L HL _ _ _ _ _ dst2 Hrun) as (e2 & d2 & H2 & Hs & _).
    exists e1, dst1, e2, d2. unfold ReadCur. rewrite Hrun, H2.
    split; [reflexivity|]. split; [reflexivity|exact Hs].
  - unfold ReadNext.
    destruct (ring_succ L (Log_CurReadRec st) =? Log_CurRec st).
    + destruct (ReadRec_delivers L HL e dst2 (Log_CurReadRec st))
        as (e2 & d2 & Hrun & _).
      exists 0, e, st, dst, e2, d2. unfold ReadCur. rewrite Hrun.
      split; [reflexivity|]. split; [reflexivity|exact I].
    + destruct (ReadRec_delivers L HL e dst (ring_succ L (Log_CurReadRec st)))
        as (e1 & dst1 & Hrun & _).
      destruct (ReadRec_again L HL _ _ _ _ _ dst2 Hrun)
        as (e2 & d2 & H2 & Hs & _).
      exists 1, e1, (set_CurReadRec st (ring_succ L (Log_CurReadRec st))),
             dst1, e2, d2.
      unfold ReadCur. rewrite Hrun.
      cbn [Log_CurReadRec set_CurReadRec]. rewrite H2.
      split; [reflexivity|]. split; [reflexivity|exact Hs].
  - unfold ReadPrev.
    destruct (ring_pred L (Log_CurReadRec st) =? Log_CurRec st).
    + destruct (ReadRec_delivers L HL e dst2 (Log_CurReadRec st))
        as (e2 & d2 & Hrun & _).
      exists 0, e, st, dst, e2, d2. unfold ReadCur. rewrite Hrun.
      split; [reflexivity|]. split; [reflexivity|exact I].
    + destruct (ReadRec_delivers L HL e dst (ring_pred L (Log_CurReadRec st)))
        as (e1 & dst1 & Hrun & _).
      destruct (ReadRec_again L HL _ _ _ _ _ dst2 Hrun)
        as (e2 & d2 & H2 & Hs & _).
      exists 1, e1, (set_CurReadRec st (ring_pred L (Log_CurReadRec st))),
             dst1, e2, d2.
      unfold ReadCur. rewrite Hrun.
      cbn [Log_CurReadRec set_CurReadRec]. rewrite H2.
      split; [reflexivity|]. split; [reflexivity|exact Hs].
Qed.

(** [Log_ReadCur] twice on the demo logger. *)
Lemma read_cur_repeats_last_read_witness :
  valid_logger demo /\
  exists e1 dst1 e2 dst2',
    ReadCur demo blank boot_state zeros = Some (e1, boot_state, dst1) /\
    ReadCur demo e1 boot_state (buffer_of rec_A)
      = Some (e2, boot_state, dst2') /\
    snapshot (rec_size demo) dst2' = snapshot (rec_size demo) dst1.
Proof.
  split; [exact valid_demo|].
  exact (proj1 (proj2 (proj2 (read_cur_repeats_last_read demo valid_demo
                                blank boot_state zeros (buffer_of rec_A))))).
Defined.

(** X6: with the read cursor on a readable slot, a [Log_ReadNext] that
    succeeds is undone by [Log_ReadPrev] and the other way round: both
    calls return 1, the read cursor is back where it was and the record
    delivered last is the one of that slot. *)
Theorem next_and_prev_undo_each_other :
  forall L, valid_logger L ->
  forall e st dst, cursor_apart L st ->
    (if (Log_CurReadRec st + 1) mod recs L =? Log_CurRec st then True
     else exists e1 st1 dst1 e2 st2 dst2,
         ReadNext L e st dst = Some (1, e1, st1, dst1) /\
         ReadPrev L e1 st1 dst1 = Some (1, e2, st2, dst2) /\
         Log_CurReadRec st2 = Log_CurReadRec st /\
         snapshot (rec_size L) dst2 = slot_record L e (Log_CurReadRec st)) /\
    (if (Log_CurReadRec st - 1) mod recs L =? Log_CurRec st then True
     else exists e1 st1 dst1 e2 st2 dst2,
         ReadPrev L e st dst = Some (1, e1, st1, dst1) /\
         ReadNext L e1 st1 dst1 = Some (1, e2, st2, dst2) /\
         Log_CurReadRec st2 = Log_CurReadRec st /\
         snapshot (rec_size L) dst2 = slot_record L e (Log_CurReadRec st)).
Proof.
  intros L HL e st dst ((Hw & Hrd) & Hne). split.
  - rewrite <- (ring_succ_mod L HL) by exact Hrd.
    destruct (Z.eqb_spec (ring_succ L (Log_CurReadRec st)) (Log_CurRec st))
      as [|Hc]; [exact I|].
    destruct (ReadRec_delivers L HL e dst (ring_succ L (Log_CurReadRec st)))
      as (e1 & dst1 & Hrun & Hc1 & _).
    destruct (ReadRec_delivers L HL e1 dst1 (Log_CurReadRec st))
      as (e2 & dst2 & Hrun2 & _ & Hd2).
    exists e1, (set_CurReadRec st (ring_succ L (Log_CurReadRec st))), dst1,
           e2, (set_CurReadRec
                  (set_CurReadRec st (ring_succ L (Log_CurReadRec st)))
                  (Log_CurReadRec st)), dst2.
    split; [|split; [|split]].
    + unfold ReadNext.
      destruct (Z.eqb_spec (ring_succ L (Log_CurReadRec st)) (Log_CurRec st));
        [contradiction|].
      rewrite Hrun. reflexivity.
    + unfold ReadPrev. cbn [Log_CurReadRec Log_CurRec set_CurReadRec].
      rewrite (ring_pred_succ L HL) by exact Hrd.
      destruct (Z.eqb_spec (Log_CurReadRec st) (Log_CurRec st));
        [contradiction|].
      rewrite Hrun2. reflexivity.
    + reflexivity.
    + rewrite (delivers_snapshot L e1 _ dst1 dst2 HL Hd2).
      apply slot_record_cells. exact Hc1.
  - rewrite <- (ring_pred_mod L HL) by exact Hrd.
    destruct (Z.eqb_spec (ring_pred L (Log_CurReadRec st)) (Log_CurRec st))
      as [|Hc]; [exact I|].
    destruct (ReadRec_delivers L HL e dst (ring_pred L (Log_CurReadRec st)))
      as (e1 & dst1 & Hrun & Hc1 & _).
    destruct (ReadRec_delivers L HL e1 dst1 (Log_CurReadRec st))
      as (e2 & dst2 & Hrun2 & _ & Hd2).
    exists e1, (set_CurReadRec st (ring_pred L (Log_CurReadRec st))), dst1,
           e2, (set_CurReadRec
                  (set_CurReadRec st (ring_pred L (Log_CurReadRec st)))
                  (Log_CurReadRec st)), dst2.
    split; [|split; [|split]].
    + unfold ReadPrev.
      destruct (Z.eqb_spec (ring_pred L (Log_CurReadRec st)) (Log_CurRec st));
        [contradiction|].
      rewrite Hrun. reflexivity.
    + unfold ReadNext. cbn [Log_CurReadRec Log_CurRec set_CurReadRec].
      rewrite (ring_succ_pred L HL) by exact Hrd.
      destruct (Z.eqb_spec (Log_CurReadRec st) (Log_CurRec st));
        [contradiction|].
      rewrite Hrun2. reflexivity.
    + reflexivity.
    + rewrite (delivers_snapshot L e1 _ dst1 dst2 HL Hd2).
      apply slot_record_cells. exact Hc1.
Qed.

Lemma apart_demo_1 : cursor_apart demo (set_CurReadRec boot_state 1).
Proof.
  unfold cursor_apart, cursors_in_range. simpl.
  repeat split; lia.
Defined.

(** On the demo logger with write cursor 0 and read cursor 1: forward to
    slot 2 and back. *)
Lemma next_and_prev_undo_each_other_witness :
  cursor_apart demo (set_CurReadRec boot_state 1) /\
  exists e1 st1 dst1 e2 st2 dst2,
    ReadNext demo blank (set_CurReadRec boot_state 1) zeros
      = Some (1, e1, st1, dst1) /\
    ReadPrev demo e1 st1 dst1 = Some (1, e2, st2, dst2) /\
    Log_CurReadRec st2 = Log_CurReadRec (set_CurReadRec boot_state 1) /\
    snapshot (rec_size demo) dst2
      = slot_record demo blank (Log_CurReadRec (set_CurReadRec boot_state 1)).
Proof.
  split; [exact apart_demo_1|].
  exact (proj1 (next_and_prev_undo_each_other demo valid_demo blank
                  (set_CurReadRec boot_state 1) zeros apart_demo_1)).
Defined.

(** X7: the reading operations keep the read cursor off the write
    cursor's slot.  From any state with both cursors in range,
    [Log_ReadFirst] and [Log_ReadLast] leave the read cursor on a slot
    other than the write cursor, and so do [Log_ReadNext] and
    [Log_ReadPrev] when they return nonzero; when they return 0 the
    state is the one they were called in. *)
Theorem reads_keep_cursor_apart :
  forall L, valid_logger L ->
  forall e st dst, cursors_in_range L st ->
    (exists e' st' dst',
        ReadFirst L e st dst = Some (e', st', dst') /\ cursor_apart L st') /\
    (exists e' st' dst',
        ReadLast L e st dst = Some (e', st', dst') /\ cursor_apart L st') /\
    (exists ret e' st' dst',
        ReadNext L e st dst = Some (ret, e', st', dst') /\
        if ret =? 0 then st' = st else cursor_apart L st') /\
    (exists ret e' st' dst',
        ReadPrev L e st dst = Some (ret, e', st', dst') /\
        if ret =? 0 then st' = st else cursor_apart L st').
Proof.
  intros L HL e st dst (Hw & Hrd).
  assert (Hmove : forall r, 0 <= r < recs L -> r <> Log_CurRec st ->
                            cursor_apart L (set_CurReadRec st r)).
  { intros r Hr Hne. split; [split|]; assumption. }
  destruct (ring_steps_move L HL (Log_CurRec st) Hw) as (Hs & Hp).
  split; [|split; [|split]].
  - unfold ReadFirst.
    destruct (ReadRec_delivers L HL e dst (ring_succ L (Log_CurRec st)))
      as (e' & dst' & -> & _).
    eexists _, _, _. split; [reflexivity|].
    apply Hmove; [apply (ring_succ_range L HL); exact Hw|exact Hs].
  - unfold ReadLast.
    destruct (ReadRec_delivers L HL e dst (ring_pred L (Log_CurRec st)))
      as (e' & dst' & -> & _).
    eexists _, _, _. split; [reflexivity|].
    apply Hmove; [apply (ring_pred_range L HL); exact Hw|exact Hp].
  - unfold ReadNext.
    destruct (Z.eqb_spec (ring_succ L (Log_CurReadRec st)) (Log_CurRec st)).
    + eexists _, _, _, _. split; reflexivity.
    + destruct (ReadRec_delivers L HL e dst (ring_succ L (Log_CurReadRec st)))
        as (e' & dst' & -> & _).
      eexists _, _, _, _. split; [reflexivity|]. cbn [Z.eqb].
      apply Hmove; [apply (ring_succ_range L HL); exact Hrd|assumption].
  - unfold ReadPrev.
    destruct (Z.eqb_spec (ring_pred L (Log_CurReadRec st)) (Log_CurRec st)).
    + eexists _, _, _, _. split; reflexivity.
    + destruct (ReadRec_delivers L HL e dst (ring_pred L (Log_CurReadRec st)))
        as (e' & dst' & -> & _).
      eexists _, _, _, _. split; [reflexivity|]. cbn [Z.eqb].
      apply Hmove; [apply (ring_pred_range L HL); exact Hrd|assumption].
Qed.

(** [Log_ReadFirst] on the demo logger at program start, where both
    cursors are 0. *)
Lemma reads_keep_cursor_apart_witness :
  cursors_in_range demo boot_state /\
  exists e' st' dst',
    ReadFirst demo blank boot_state zeros = Some (e', st', dst') /\
    cursor_apart demo st'.
Proof.
  assert (H : cursors_in_range demo boot_state)
    by (unfold cursors_in_range; simpl; lia).
  split; [exact H|].
  exact (proj1 (reads_keep_cursor_apart demo valid_demo blank boot_state
                  zeros H)).
Defined.

(** ** Traversals and records, for the user of the log *)

(** X8: whatever the read cursor and the medium, [Log_ReadFirst] followed
    by [Log_ReadNext] until it returns 0 delivers the [recs - 1] slots
    after the write cursor in ring order, [(w + 1) mod recs] first and
    [(w + recs - 1) mod recs] last, each with the record the medium holds
    there. *)
Theorem forward_traversal_in_ring_order :
  forall L, valid_logger L ->
  forall e st dst, 0 <= Log_CurRec st < recs L ->
    read_forward L e st dst =
      Some (map (fun j => ((Log_CurRec st + j) mod recs L,
                           slot_record L e ((Log_CurRec st + j) mod recs L)))
                (zrange 1 (Z.to_nat (recs L - 1)))).
Proof. intros L HL e st dst Hw. apply read_forward_ring; assumption. Qed.

Lemma boot_cursor_demo : 0 <= Log_CurRec boot_state < recs demo.
Proof. simpl. lia. Defined.

(** On the demo logger at program start. *)
Lemma forward_traversal_in_ring_order_witness :
  0 <= Log_CurRec boot_state < recs demo /\
  read_forward demo blank boot_state zeros =
    Some (map (fun j => ((Log_CurRec boot_state + j) mod recs demo,
                         slot_record demo blank
                           ((Log_CurRec boot_state + j) mod recs demo)))
              (zrange 1 (Z.to_nat (recs demo - 1)))).
Proof.
  split; [exact boot_cursor_demo|].
  exact (forward_traversal_in_ring_order demo valid_demo blank boot_state
           zeros boot_cursor_demo).
Defined.

(** X9: [Log_ReadLast] followed by [Log_ReadPrev] until it returns 0
    delivers exactly what the forward traversal delivers, in the reverse
    order; both deliver [recs - 1] records and neither ever delivers the
    slot at the write cursor. *)
Theorem backward_traversal_mirrors_forward :
  forall L, valid_logger L ->
  forall e st dst, 0 <= Log_CurRec st < recs L ->
  exists l,
    read_forward L e st dst = Some l /\
    read_backward L e st dst = Some (rev l) /\
    Z.of_nat (length l) = recs L - 1 /\
    ~ In (Log_CurRec st) (map fst l).
Proof. intros L HL e st dst Hw. apply traversals_mirror; assumption. Qed.

(** On the demo logger at program start. *)
Lemma backward_traversal_mirrors_forward_witness :
  0 <= Log_CurRec boot_state < recs demo /\
  exists l,
    read_forward demo blank boot_state zeros = Some l /\
    read_backward demo blank boot_state zeros = Some (rev l) /\
    Z.of_nat (length l) = recs demo - 1 /\
    ~ In (Log_CurRec boot_state) (map fst l).
Proof.
  split; [exact boot_cursor_demo|].
  exact (backward_traversal_mirrors_forward demo valid_demo blank boot_state
           zeros boot_cursor_demo).
Defined.

(** X10: a record written and read back.  After a completed transfer
    [Log_ReadLast] puts the read cursor on the slot that was the write
    cursor and delivers the record handed to the writer, byte for byte,
    except that bit 7 of its last byte comes back cleared. *)
Theorem write_then_read_last :
  forall L, valid_logger L -> region_fits L ->
  forall e st s dst, consistent L st ->
  exists e1 st1 e2 st2 dst',
    transfer L s e st = Some (e1, st1) /\
    ReadLast L e1 st1 dst = Some (e2, st2, dst') /\
    Log_CurReadRec st2 = Log_CurRec st /\
    snapshot (rec_size L) dst' = decoded L s.
Proof.
  intros L HL HR e st s dst Hc.
  pose proof Hc as ((Hw & _) & Hf & _).
  destruct (transfer_step L HL HR s e st Hc)
    as (e1 & st1 & Hrun & _ & Hst & Hfin & _).
  destruct (transfer_slot_records L HL HR s e e1 _ _ Hw Hf Hst) as (Hnew & _).
  assert (Hback : ring_pred L (Log_CurRec st1) = Log_CurRec st).
  { destruct Hfin as (_ & _ & -> & _).
    rewrite <- (ring_succ_cases L HL) by exact Hw.
    apply (ring_pred_succ L HL). exact Hw. }
  destruct (ReadRec_delivers L HL e1 dst (Log_CurRec st))
    as (e2 & dst' & Hread & _ & Hd).
  exists e1, st1, e2, (set_CurReadRec st1 (Log_CurRec st)), dst'.
  split; [exact Hrun|]. split; [|split; [reflexivity|]].
  - unfold ReadLast. rewrite Hback, Hread. reflexivity.
  - rewrite (delivers_snapshot L e1 _ dst dst' HL Hd). exact Hnew.
Qed.

Lemma consistent_boot_demo : consistent demo boot_state.
Proof.
  unfold consistent, cursors_in_range, at_rest. simpl.
  repeat split; try lia; left; reflexivity.
Defined.

(** The record [A] written to the demo logger at program start. *)
Lemma write_then_read_last_witness :
  consistent demo boot_state /\
  exists e1 st1 e2 st2 dst',
    transfer demo (buffer_of rec_A) blank boot_state = Some (e1, st1) /\
    ReadLast demo e1 st1 zeros = Some (e2, st2, dst') /\
    Log_CurReadRec st2 = Log_CurRec boot_state /\
    snapshot (rec_size demo) dst' = decoded demo (buffer_of rec_A).
Proof.
  split; [exact consistent_boot_demo|].
  exact (write_then_read_last demo valid_demo fits_demo blank boot_state
           (buffer_of rec_A) zeros consistent_boot_demo).
Defined.

(** X11: where records go.  [k <= recs] records written one after the
    other to a consistent log with write cursor [w] end up in the slots
    [w, w + 1, ...] taken modulo [recs], the [i]-th in slot
    [(w + i) mod recs]; every other slot holds the record it held
    before. *)
Theorem records_fill_consecutive_slots :
  forall L, valid_logger L -> region_fits L ->
  forall e st srcs,
    consistent L st ->
    Z.of_nat (length srcs) <= recs L ->
  exists e' sts,
    transfers L srcs e st = Some (e', sts) /\
    (forall i : nat, (i < length srcs)%nat ->
       slot_record L e' ((Log_CurRec st + Z.of_nat i) mod recs L)
       = decoded L (nth i srcs zeros)) /\
    (forall x, 0 <= x < recs L ->
       (forall i : nat, (i < length srcs)%nat ->
                        x <> (Log_CurRec st + Z.of_nat i) mod recs L) ->
       slot_record L e' x = slot_record L e x).
Proof.
  intros L HL HR e st srcs Hc Hlen.
  destruct (transfers_wrap_count L HL HR srcs e st Hc)
    as (e' & sts & Hrun & _).
  exists e', sts. split; [exact Hrun|].
  exact (transfers_slot_records L HL HR srcs e st e' sts Hc Hlen Hrun).
Qed.

Lemma four_fit_demo :
  Z.of_nat (length (map buffer_of ring_records)) <= recs demo.
Proof. simpl. lia. Defined.

(** Four records written to the demo logger at program start. *)
Lemma records_fill_consecutive_slots_witness :
  consistent demo boot_state /\
  Z.of_nat (length (map buffer_of ring_records)) <= recs demo /\
  exists e' sts,
    transfers demo (map buffer_of ring_records) blank boot_state
      = Some (e', sts) /\
    (forall i : nat, (i < length (map buffer_of ring_records))%nat ->
       slot_record demo e'
         ((Log_CurRec boot_state + Z.of_nat i) mod recs demo)
       = decoded demo (nth i (map buffer_of ring_records) zeros)) /\
    (forall x, 0 <= x < recs demo ->
       (forall i : nat, (i < length (map buffer_of ring_records))%nat ->
                        x <> (Log_CurRec boot_state + Z.of_nat i)
                               mod recs demo) ->
       slot_record demo e' x = slot_record demo blank x).
Proof.
  split; [exact consistent_boot_demo|]. split; [exact four_fit_demo|].
  exact (records_fill_consecutive_slots demo valid_demo fits_demo blank
           boot_state (map buffer_of ring_records) consistent_boot_demo
           four_fit_demo).
Defined.

(** X12: records are read back in write order.  After [k <= recs - 1]
    records written to a consistent log, with the variables as the writer
    leaves them, the forward traversal delivers first the [recs - 1 - k]
    oldest slots that were not overwritten, with the records they held,
    and then the [k] records written, oldest first, each as written up to
    bit 7 of its last byte; the backward traversal delivers the same in
    reverse. *)
Theorem written_records_read_in_write_order :
  forall L, valid_logger L -> region_fits L ->
  forall e st srcs dst,
    consistent L st ->
    Z.of_nat (length srcs) <= recs L - 1 ->
  exists e' sts l,
    transfers L srcs e st = Some (e', sts) /\
    l = map (fun j =>
               let x := (Log_CurRec st + Z.of_nat (length srcs) + j)
                          mod recs L in
               (x, slot_record L e x))
            (zrange 1 (Z.to_nat (recs L - 1) - length srcs))
        ++ map (fun i => ((Log_CurRec st + i) mod recs L,
                          decoded L (nth (Z.to_nat i) srcs zeros)))
               (zrange 0 (length srcs)) /\
    read_forward L e' (last sts st) dst = Some l /\
    read_backward L e' (last sts st) dst = Some (rev l).
Proof.
  intros L HL HR e st srcs dst Hc Hlen.
  assert (HN : 2 <= recs L <= 255) by (destruct HL; assumption).
  destruct (transfers_wrap_count L HL HR srcs e st Hc)
    as (e' & sts & Hrun & _ & _ & Hcr & _).
  pose proof (written_records_read_forward L HL HR srcs e st e' sts dst
                Hc Hlen Hrun) as Hfwd.
  assert (Hw' : 0 <= Log_CurRec (last sts st) < recs L)
    by (rewrite Hcr; apply Z.mod_pos_bound; lia).
  destruct (traversals_mirror L HL e' (last sts st) dst Hw')
    as (l & Hf & Hb & _).
  rewrite Hfwd in Hf. injection Hf as <-.
  eexists e', sts, _. split; [exact Hrun|]. split; [reflexivity|].
  split; [exact Hfwd|exact Hb].
Qed.

Lemma one_fits_demo :
  Z.of_nat (length [buffer_of rec_A]) <= recs demo - 1.
Proof. simpl. lia. Defined.

(** The record [A] written to the demo logger at program start. *)
Lemma written_records_read_in_write_order_witness :
  consistent demo boot_state /\
  exists e' sts l,
    transfers demo [buffer_of rec_A] blank boot_state = Some (e', sts) /\
    read_forward demo e' (last sts boot_state) zeros = Some l /\
    read_backward demo e' (last sts boot_state) zeros = Some (rev l).
Proof.
  split; [exact consistent_boot_demo|].
  destruct (written_records_read_in_write_order demo valid_demo fits_demo
              blank boot_state [buffer_of rec_A] zeros consistent_boot_demo
              one_fits_demo) as (e' & sts & l & Hrun & _ & Hf & Hb).
  exists e', sts, l. auto.
Defined.

(** ** The writer, the medium and the cursors *)

(** Bit 7 of a stored last byte is the flag it was stored under. *)
Lemma keep_flag : forall f y,
  (f = 0 \/ f = LOG_FLAG_MASK) -> 0 <= y < 256 ->
  Z.land LOG_FLAG_MASK (u8 (u8 (Z.lor f (u8 (Z.land y LOG_PAYLOAD_MASK)))))
  = f.
Proof.
  intros f y Hf Hy.
  assert (H : forallb
                (fun y =>
                   (Z.land LOG_FLAG_MASK
                      (u8 (u8 (Z.lor 0 (u8 (Z.land y LOG_PAYLOAD_MASK)))))
                    =? 0) &&
                   (Z.land LOG_FLAG_MASK
                      (u8 (u8 (Z.lor LOG_FLAG_MASK
                                     (u8 (Z.land y LOG_PAYLOAD_MASK)))))
                    =? LOG_FLAG_MASK))
                (zrange 0 256) = true) by (vm_compute; reflexivity).
  rewrite forallb_forall in H. specialize (H y).
  rewrite zrange_In in H. specialize (H ltac:(lia)).
  apply andb_prop in H. destruct H as [H0 H1].
  destruct Hf as [-> | ->]; apply Z.eqb_eq; assumption.
Qed.

Lemma run_calls_app : forall L l1 l2 e st,
  run_calls L (l1 ++ l2) e st =
  match run_calls L l1 e st with
  | None => None
  | Some (r1, e1, st1) =>
      match run_calls L l2 e1 st1 with
      | None => None
      | Some (r2, e2, st2) => Some (r1 ++ r2, e2, st2)
      end
  end.
Proof.
  intros L l1. induction l1 as [|[free src] l1 IH]; intros l2 e st.
  - cbn [app run_calls].
    destruct (run_calls L l2 e st) as [[[r2 e2] st2]|]; reflexivity.
  - cbn [app run_calls].
    destruct (NoblockingWrite L free e st src) as [[[ret e1] st1]|];
      [|reflexivity].
    rewrite IH.
    destruct (run_calls L l1 e1 st1) as [[[r1 e1'] st1']|]; [|reflexivity].
    destruct (run_calls L l2 e1' st1') as [[[r2 e2] st2]|]; reflexivity.
Qed.

Section WriterFrame.

Variable L : logger.
Hypothesis HL : valid_logger L.
Hypothesis HR : region_fits L.

Lemma slot_addr_distinct : forall x w k k',
  0 <= x < recs L -> 0 <= w < recs L ->
  0 <= k < rec_size L -> 0 <= k' < rec_size L ->
  x <> w \/ k <> k' ->
  slot_addr L x k <> slot_addr L w k'.
Proof.
  intros x w k k' Hx Hw Hk Hk' Hne.
  rewrite !(slot_addr_exact L HL HR) by assumption.
  destruct (Z.eq_dec x w) as [->|Hxw]; [lia|].
  assert (Hlt : x < w \/ w < x) by lia.
  destruct Hlt as [Hlt|Hlt].
  - assert (x * rec_size L + rec_size L <= w * rec_size L) by nia. lia.
  - assert (w * rec_size L + rec_size L <= x * rec_size L) by nia. lia.
Qed.

Lemma in_region_slot : forall r k,
  0 <= r < recs L -> 0 <= k < rec_size L ->
  in_region L (slot_addr L r k) = true.
Proof.
  intros r k Hr Hk. rewrite (slot_addr_exact L HL HR) by assumption.
  unfold in_region. apply andb_true_intro. split.
  - apply Z.leb_le. nia.
  - apply Z.ltb_lt. nia.
Qed.

Lemma out_of_region_not_slot : forall a r k,
  in_region L a = false -> 0 <= r < recs L -> 0 <= k < rec_size L ->
  a <> slot_addr L r k.
Proof.
  intros a r k Ha Hr Hk E. subst a.
  rewrite in_region_slot in Ha by assumption. discriminate.
Qed.

(** What the first [n] bytes of a record change on the medium when the
    last byte is not among them. *)
Lemma partial_record_frame : forall w f s (n : nat) e e',
  0 <= w < recs L -> Z.of_nat n < rec_size L ->
  slot_bytes_stored L w f s 0 n e e' ->
  (forall x, 0 <= x < recs L -> slot_flag L e' x = slot_flag L e x) /\
  (forall x, 0 <= x < recs L -> x <> w ->
             slot_record L e' x = slot_record L e x) /\
  (forall a, in_region L a = false -> ee_cells e' a = ee_cells e a).
Proof.
  intros w f s n e e' Hw Hn (_ & Hout).
  assert (HS : 2 <= rec_size L <= 255) by (destruct HL; assumption).
  split; [|split].
  - intros x Hx. unfold slot_flag. rewrite Hout; [reflexivity|].
    intros k Hk. apply slot_addr_distinct; try lia.
  - intros x Hx Hne. unfold slot_record. apply map_ext_in. intros k Hk.
    apply zrange_In in Hk. rewrite Z2Nat.id in Hk by lia.
    rewrite Hout; [reflexivity|].
    intros k' Hk'. apply slot_addr_distinct; try lia.
  - intros a Ha. apply Hout. intros k Hk.
    apply out_of_region_not_slot; try assumption; lia.
Qed.

End WriterFrame.

(** X13: an interrupted transfer is confined.  After fewer than
    [rec_size] ready invocations for a record (power may be lost at any
    such point) the write cursor, the flag variable and the read cursor
    are as before, no flag bit of any slot on the medium has changed, the
    record of every slot other than the write cursor's is intact, and no
    byte outside the region has changed. *)
Theorem interrupted_transfer_confined :
  forall L, valid_logger L -> region_fits L ->
  forall e st s (n : nat),
    at_rest L st -> 0 <= Log_CurRec st < recs L ->
    (1 <= n)%nat -> Z.of_nat n < rec_size L ->
  exists rets e' st',
    run_calls L (issue_bytes s n) e st = Some (rets, e', st') /\
    Log_CurRec st' = Log_CurRec st /\
    Log_CurFlag st' = Log_CurFlag st /\
    Log_CurReadRec st' = Log_CurReadRec st /\
    (forall x, 0 <= x < recs L -> slot_flag L e' x = slot_flag L e x) /\
    (forall x, 0 <= x < recs L -> x <> Log_CurRec st ->
               slot_record L e' x = slot_record L e x) /\
    (forall a, in_region L a = false -> ee_cells e' a = ee_cells e a).
Proof.
  intros L HL HR e st s n Hrest Hw Hn1 Hn.
  assert (HS : 2 <= rec_size L <= 255) by (destruct HL; assumption).
  unfold issue_bytes.
  destruct (run_calls_record L HL HR e st s (repeat (true, None) (n - 1)))
    as (e' & st' & Hrun & _ & Hst & Hfin); try assumption.
  - rewrite repeat_length. lia.
  - apply Forall_forall. intros c Hc. apply repeat_spec in Hc. subst c.
    reflexivity.
  - rewrite repeat_length in *.
    replace (S (n - 1)) with n in * by lia.
    destruct (Z.eqb_spec (Z.of_nat n) (rec_size L)) as [E|_]; [lia|].
    destruct Hfin as (_ & _ & Hcr & Hfl & Hrd & _).
    eexists _, e', st'. split; [exact Hrun|].
    split; [exact Hcr|]. split; [exact Hfl|]. split; [exact Hrd|].
    exact (partial_record_frame L HL HR _ _ s n e e' Hw Hn Hst).
Qed.

Lemma two_of_three : Z.of_nat 2 < rec_size demo.
Proof. simpl. lia. Defined.

(** Two of the three bytes of [A] issued on the demo logger. *)
Lemma interrupted_transfer_confined_witness :
  at_rest demo boot_state /\
  0 <= Log_CurRec boot_state < recs demo /\
  exists rets e' st',
    run_calls demo (issue_bytes (buffer_of rec_A) 2) blank boot_state
      = Some (rets, e', st') /\
    Log_CurRec st' = Log_CurRec boot_state /\
    Log_CurFlag st' = Log_CurFlag boot_state /\
    Log_CurReadRec st' = Log_CurReadRec boot_state /\
    (forall x, 0 <= x < recs demo ->
               slot_flag demo e' x = slot_flag demo blank x) /\
    (forall x, 0 <= x < recs demo -> x <> Log_CurRec boot_state ->
               slot_record demo e' x = slot_record demo blank x) /\
    (forall a, in_region demo a = false -> ee_cells e' a = ee_cells blank a).
Proof.
  split; [exact (rest_at_boot demo)|]. split; [exact boot_cursor_demo|].
  exact (interrupted_transfer_confined demo valid_demo fits_demo blank
           boot_state (buffer_of rec_A) 2 (rest_at_boot demo)
           boot_cursor_demo (le_S 1 1 (le_n 1)) two_of_three).
Defined.

(** X14: the writer keeps the flag bytes on the medium in step with its
    variables.  When the slots before the write cursor carry the flag
    variable's value in bit 7 of their last byte and the slots from the
    write cursor on the other value, the same holds after a completed
    transfer, also when the write cursor wraps to 0 and the flag variable
    flips. *)
Theorem transfer_keeps_ring_flags :
  forall L, valid_logger L -> region_fits L ->
  forall e st s,
    consistent L st -> ring_flags L e st ->
  exists e' st',
    transfer L s e st = Some (e', st') /\
    consistent L st' /\ ring_flags L e' st'.
Proof.
  intros L HL HR e st s Hc Hflags.
  assert (HN : 2 <= recs L <= 255) by (destruct HL; assumption).
  assert (HS : 2 <= rec_size L <= 255) by (destruct HL; assumption).
  pose proof Hc as ((Hw & _) & Hf & _).
  destruct (transfer_step L HL HR s e st Hc)
    as (e' & st' & Hrun & _ & (Hin & Hout) & Hfin & Hc').
  exists e', st'. split; [exact Hrun|]. split; [exact Hc'|].
  rewrite Z2Nat.id in Hin, Hout by lia.
  assert (Hnew : slot_flag L e' (Log_CurRec st) = Log_CurFlag st).
  { unfold slot_flag. rewrite Hin by lia. unfold stored_byte.
    rewrite Z.eqb_refl. apply keep_flag; [exact Hf|apply u8_range]. }
  assert (Hold : forall x, 0 <= x < recs L -> x <> Log_CurRec st ->
                           slot_flag L e' x = slot_flag L e x).
  { intros x Hx Hne. unfold slot_flag. rewrite Hout; [reflexivity|].
    intros k Hk. apply (slot_addr_distinct L HL HR); try lia. }
  destruct Hfin as (_ & _ & Hcr & Hfl & _).
  intros x Hx. rewrite Hcr, Hfl.
  destruct (Z.eq_dec x (Log_CurRec st)) as [->|Hne].
  - rewrite Hnew.
    destruct (Z.eqb_spec (Log_CurRec st) (recs L - 1)) as [E|E].
    + destruct (Z.ltb_spec (Log_CurRec st) 0); [lia|].
      unfold LOG_FLAG_MASK in *. destruct Hf as [-> | ->]; reflexivity.
    + destruct (Z.ltb_spec (Log_CurRec st) (Log_CurRec st + 1)); [|lia].
      reflexivity.
  - rewrite (Hold x Hx Hne), (Hflags x Hx).
    destruct (Z.eqb_spec (Log_CurRec st) (recs L - 1)) as [E|E].
    + destruct (Z.ltb_spec x (Log_CurRec st)); [|lia].
      destruct (Z.ltb_spec x 0); [lia|].
      unfold LOG_FLAG_MASK in *. destruct Hf as [-> | ->]; reflexivity.
    + destruct (Z.ltb_spec x (Log_CurRec st)),
               (Z.ltb_spec x (Log_CurRec st + 1)); try lia; reflexivity.
Qed.

(** The demo logger with write cursor 0, flag variable 0x80 and every
    flag byte of the medium clear, as start-up leaves them. *)
Lemma ring_flags_demo :
  ring_flags demo blank (set_CurFlag boot_state LOG_FLAG_MASK).
Proof.
  intros x Hx. cbn [Log_CurRec Log_CurFlag set_CurFlag boot_state].
  destruct (Z.ltb_spec x 0) as [Hlt|_]; [destruct Hx; lia|reflexivity].
Defined.

Lemma consistent_flag_demo :
  consistent demo (set_CurFlag boot_state LOG_FLAG_MASK).
Proof.
  unfold consistent, cursors_in_range, at_rest. simpl.
  split; [lia|]. split; [right; reflexivity|left; reflexivity].
Defined.

Lemma transfer_keeps_ring_flags_witness :
  consistent demo (set_CurFlag boot_state LOG_FLAG_MASK) /\
  ring_flags demo blank (set_CurFlag boot_state LOG_FLAG_MASK) /\
  exists e' st',
    transfer demo (buffer_of rec_A) blank
             (set_CurFlag boot_state LOG_FLAG_MASK) = Some (e', st') /\
    consistent demo st' /\ ring_flags demo e' st'.
Proof.
  split; [exact consistent_flag_demo|]. split; [exact ring_flags_demo|].
  exact (transfer_keeps_ring_flags demo valid_demo fits_demo blank
           (set_CurFlag boot_state LOG_FLAG_MASK) (buffer_of rec_A)
           consistent_flag_demo ring_flags_demo).
Defined.

(** X15: what the caller sees of one record.  Handed to a writer at rest
    and polled while the medium is ready, [Log_NoblockingWrite] returns 1
    for the call that takes the record, 0 for the [rec_size - 1] calls
    that follow (the last of them issues the last byte), and 1 for every
    call with [SRC = 0] after that; the first such call makes the writer
    idle, and these calls issue nothing. *)
Theorem write_return_values :
  forall L, valid_logger L -> region_fits L ->
  forall e st s,
    at_rest L st -> 0 <= Log_CurRec st < recs L ->
  exists e' st',
    run_calls L (issue_bytes s (Z.to_nat (rec_size L))
                 ++ [(true, None); (true, None)]) e st
      = Some ((1 :: repeat 0 (Z.to_nat (rec_size L) - 1)) ++ [1; 1],
              e', st') /\
    wr_a st' = 0 /\
    ee_trace e' =
      rev (record_events L (Log_CurRec st) (Log_CurFlag st) s 0
             (Z.to_nat (rec_size L))) ++ ee_trace e.
Proof.
  intros L HL HR e st s Hrest Hw.
  assert (HS : 2 <= rec_size L <= 255) by (destruct HL; assumption).
  assert (HN : 2 <= recs L <= 255) by (destruct HL; assumption).
  rewrite run_calls_app. unfold issue_bytes.
  destruct (run_calls_record L HL HR e st s
              (repeat (true, None) (Z.to_nat (rec_size L) - 1)))
    as (e' & st' & Hrun & Htr & _ & Hfin); try assumption.
  - rewrite repeat_length. lia.
  - apply Forall_forall. intros c Hc. apply repeat_spec in Hc. subst c.
    reflexivity.
  - rewrite repeat_length in *.
    replace (S (Z.to_nat (rec_size L) - 1)) with (Z.to_nat (rec_size L))
      in * by lia.
    rewrite Z2Nat.id in Hfin by lia. rewrite Z.eqb_refl in Hfin.
    destruct Hfin as (Ha & Hi & _).
    rewrite Hrun.
    assert (Hnz : (wr_a st' =? 0) = false).
    { rewrite Ha, (slot_addr_exact L HL HR) by lia.
      apply Z.eqb_neq. destruct HR. nia. }
    exists e', (set_wr st' 0 (wr_i st')).
    cbn [run_calls]. unfold NoblockingWrite at 1. cbn [negb].
    rewrite Hnz, Hi, Z.eqb_refl. cbn [negb NoblockingWrite_test].
    unfold NoblockingWrite. cbn [negb wr_a set_wr Z.eqb NoblockingWrite_test].
    split; [reflexivity|]. split; [reflexivity|exact Htr].
Qed.

(** The record [A] on the demo logger at program start. *)
Lemma write_return_values_witness :
  at_rest demo boot_state /\
  0 <= Log_CurRec boot_state < recs demo /\
  exists e' st',
    run_calls demo (issue_bytes (buffer_of rec_A) (Z.to_nat (rec_size demo))
                    ++ [(true, None); (true, None)]) blank boot_state
      = Some ((1 :: repeat 0 (Z.to_nat (rec_size demo) - 1)) ++ [1; 1],
              e', st') /\
    wr_a st' = 0 /\
    ee_trace e' =
      rev (record_events demo (Log_CurRec boot_state)
             (Log_CurFlag boot_state) (buffer_of rec_A) 0
             (Z.to_nat (rec_size demo))) ++ ee_trace blank.
Proof.
  split; [exact (rest_at_boot demo)|]. split; [exact boot_cursor_demo|].
  exact (write_return_values demo valid_demo fits_demo blank boot_state
           (buffer_of rec_A) (rest_at_boot demo) boot_cursor_demo).
Defined.

(** X16: invocations made while the medium is busy never matter.  For
    every sequence of invocations, from every state and on every medium,
    leaving out the ones at which [isEEfree()] answers 0 gives the same
    medium and the same variables (or the same failure to return). *)
Theorem busy_calls_never_matter :
  forall L calls e st,
    outcome_of (run_calls L calls e st) =
    outcome_of (run_calls L (filter (fun c => fst c) calls) e st).
Proof.
  intros L calls e st.
  pose proof (run_calls_skips_busy L calls e st) as H.
  destruct (run_calls L (filter (fun c => fst c) calls) e st)
    as [[[rets e'] st']|].
  - destruct H as (rets' & ->). reflexivity.
  - rewrite H. reflexivity.
Qed.

(** X17: apart from [Log_InitLog], no operation reaches outside the
    region.  On a consistent log every medium access of a completed
    transfer and of each reading operation addresses one of the
    [recs * rec_size] bytes from [start_addr] on. *)
Theorem operations_stay_in_region :
  forall L, valid_logger L -> region_fits L ->
  forall e st s dst, consistent L st ->
    (exists e' st', transfer L s e st = Some (e', st') /\
                    accesses_in_region L e e') /\
    (exists e' st' dst', ReadFirst L e st dst = Some (e', st', dst') /\
                         accesses_in_region L e e') /\
    (exists e' st' dst', ReadLast L e st dst = Some (e', st', dst') /\
                         accesses_in_region L e e') /\
    (exists e' st' dst', ReadCur L e st dst = Some (e', st', dst') /\
                         accesses_in_region L e e') /\
    (exists ret e' st' dst', ReadNext L e st dst = Some (ret, e', st', dst') /\
                             accesses_in_region L e e') /\
    (exists ret e' st' dst', ReadPrev L e st dst = Some (ret, e', st', dst') /\
                             accesses_in_region L e e').
Proof.
  intros L HL HR e st s dst Hc.
  assert (HS : 2 <= rec_size L <= 255) by (destruct HL; assumption).
  pose proof Hc as ((Hw & Hrd) & _).
  assert (Hslot : forall r e', 0 <= r < recs L -> reads_slot L r e e' ->
                               accesses_in_region L e e').
  { intros r e' Hr (_ & Htr). eexists. split; [exact Htr|].
    apply Forall_forall. intros ev Hev. apply in_rev in Hev.
    unfold slot_reads in Hev. apply in_map_iff in Hev.
    destruct Hev as (k & <- & Hk). apply zrange_In in Hk.
    rewrite Z2Nat.id in Hk by lia.
    apply (in_region_slot L HL HR); lia. }
  assert (Hnone : accesses_in_region L e e).
  { exists []. split; [reflexivity|constructor]. }
  split; [|split; [|split; [|split; [|split]]]].
  - destruct (transfer_step L HL HR s e st Hc)
      as (e' & st' & Hrun & Htr & _).
    exists e', st'. split; [exact Hrun|].
    eexists. split; [exact Htr|].
    apply Forall_forall. intros ev Hev. apply in_rev in Hev.
    unfold record_events in Hev. apply in_map_iff in Hev.
    destruct Hev as (k & <- & Hk). apply zrange_In in Hk.
    rewrite Z2Nat.id in Hk by lia.
    apply (in_region_slot L HL HR); lia.
  - unfold ReadFirst.
    destruct (ReadRec_reads L HL e dst (ring_succ L (Log_CurRec st)))
      as (e' & dst' & -> & _ & Hr).
    eexists _, _, _. split; [reflexivity|].
    apply (Hslot _ _ (ring_succ_range L HL _ Hw) Hr).
  - unfold ReadLast.
    destruct (ReadRec_reads L HL e dst (ring_pred L (Log_CurRec st)))
      as (e' & dst' & -> & _ & Hr).
    eexists _, _, _. split; [reflexivity|].
    apply (Hslot _ _ (ring_pred_range L HL _ Hw) Hr).
  - unfold ReadCur.
    destruct (ReadRec_reads L HL e dst (Log_CurReadRec st))
      as (e' & dst' & -> & _ & Hr).
    eexists _, _, _. split; [reflexivity|]. apply (Hslot _ _ Hrd Hr).
  - unfold ReadNext.
    destruct (ring_succ L (Log_CurReadRec st) =? Log_CurRec st).
    + eexists _, _, _, _. split; [reflexivity|exact Hnone].
    + destruct (ReadRec_reads L HL e dst (ring_succ L (Log_CurReadRec st)))
        as (e' & dst' & -> & _ & Hr).
      eexists _, _, _, _. split; [reflexivity|].
      apply (Hslot _ _ (ring_succ_range L HL _ Hrd) Hr).
  - unfold ReadPrev.
    destruct (ring_pred L (Log_CurReadRec st) =? Log_CurRec st).
    + eexists _, _, _, _. split; [reflexivity|exact Hnone].
    + destruct (ReadRec_reads L HL e dst (ring_pred L (Log_CurReadRec st)))
        as (e' & dst' & -> & _ & Hr).
      eexists _, _, _, _. split; [reflexivity|].
      apply (Hslot _ _ (ring_pred_range L HL _ Hrd) Hr).
Qed.

(** A transfer on the demo logger at program start. *)
Lemma operations_stay_in_region_witness :
  consistent demo boot_state /\
  exists e' st',
    transfer demo (buffer_of rec_A) blank boot_state = Some (e', st') /\
    accesses_in_region demo blank e'.
Proof.
  split; [exact consistent_boot_demo|].
  exact (proj1 (operations_stay_in_region demo valid_demo fits_demo blank
                  boot_state (buffer_of rec_A) zeros consistent_boot_demo)).
Defined.

(** X18: the writer moves the read cursor out of the way.  A completed
    transfer steps the write cursor to the next slot; when the read
    cursor sits on that slot it is stepped one further, otherwise it
    stays; either way the read cursor is not on the write cursor
    afterwards. *)
Theorem transfer_chases_read_cursor :
  forall L, valid_logger L -> region_fits L ->
  forall e st s, consistent L st ->
  exists e' st',
    transfer L s e st = Some (e', st') /\
    Log_CurRec st' = (Log_CurRec st + 1) mod recs L /\
    Log_CurReadRec st' =
      (if Log_CurReadRec st =? (Log_CurRec st + 1) mod recs L
       then (Log_CurReadRec st + 1) mod recs L
       else Log_CurReadRec st) /\
    cursor_apart L st'.
Proof.
  intros L HL HR e st s Hc.
  assert (HN : 2 <= recs L <= 255) by (destruct HL; assumption).
  pose proof Hc as ((Hw & Hrd) & _).
  destruct (transfer_step L HL HR s e st Hc)
    as (e' & st' & Hrun & _ & _ & Hfin & ((Hw' & Hrd') & _)).
  destruct Hfin as (_ & _ & Hcr & _ & Hrc).
  rewrite <- (ring_succ_cases L HL) in Hcr, Hrc by exact Hw.
  rewrite (ring_succ_mod L HL) in Hcr, Hrc by exact Hw.
  assert (Hstep : (if Log_CurReadRec st =? recs L - 1 then 0
                   else u8 (Log_CurReadRec st + 1))
                  = (Log_CurReadRec st + 1) mod recs L).
  { rewrite <- (ring_succ_mod L HL), (ring_succ_cases L HL) by exact Hrd.
    destruct (Log_CurReadRec st =? recs L - 1); [reflexivity|].
    apply u8_small. lia. }
  rewrite Hstep in Hrc.
  exists e', st'. split; [exact Hrun|]. split; [exact Hcr|].
  split; [exact Hrc|]. split; [split; assumption|].
  rewrite Hrc, Hcr.
  destruct (Z.eqb_spec (Log_CurReadRec st) ((Log_CurRec st + 1) mod recs L))
    as [E|E]; [|exact E].
  rewrite E. apply ring_offset_neq; [|lia].
  apply Z.mod_pos_bound. lia.
Qed.

(** A transfer on the demo logger with write cursor 0 and read cursor 1:
    the write cursor becomes 1 and the read cursor 2. *)
Lemma transfer_chases_read_cursor_witness :
  consistent demo (set_CurReadRec boot_state 1) /\
  exists e' st',
    transfer demo (buffer_of rec_A) blank (set_CurReadRec boot_state 1)
      = Some (e', st') /\
    Log_CurRec st' = 1 /\ Log_CurReadRec st' = 2 /\ cursor_apart demo st'.
Proof.
  assert (H : consistent demo (set_CurReadRec boot_state 1)).
  { unfold consistent, cursors_in_range, at_rest. simpl.
    split; [lia|]. split; left; reflexivity. }
  split; [exact H|].
  exact (transfer_chases_read_cursor demo valid_demo fits_demo blank
           (set_CurReadRec boot_state 1) (buffer_of rec_A) H).
Defined.

(** What the pattern of [ring_flags] means for a scan of the flag bytes:
    the write cursor is the first slot whose flag differs from the flag
    of slot 0, and it is 0 when no flag differs. *)
Lemma ring_flags_mark_write_cursor : forall L e st,
  consistent L st -> ring_flags L e st ->
  (forall x, 0 <= x < Log_CurRec st -> slot_flag L e x = slot_flag L e 0) /\
  (0 < Log_CurRec st ->
   slot_flag L e (Log_CurRec st) <> slot_flag L e 0 /\
   slot_flag L e 0 = Log_CurFlag st) /\
  (Log_CurRec st = 0 ->
   forall x, 0 <= x < recs L -> slot_flag L e x = slot_flag L e 0).
Proof.
  intros L e st ((Hw & _) & Hf & _) Hflags. split; [|split].
  - intros x Hx. rewrite (Hflags x), (Hflags 0) by lia.
    destruct (Z.ltb_spec x (Log_CurRec st)), (Z.ltb_spec 0 (Log_CurRec st));
      try lia; reflexivity.
  - intros Hpos. rewrite (Hflags (Log_CurRec st)), (Hflags 0) by lia.
    rewrite Z.ltb_irrefl.
    destruct (Z.ltb_spec 0 (Log_CurRec st)); [|lia].
    split; [|reflexivity].
    unfold LOG_FLAG_MASK in *. destruct Hf as [-> | ->]; discriminate.
  - intros H0 x Hx. rewrite (Hflags x), (Hflags 0), H0 by lia.
    destruct (Z.ltb_spec x 0); [lia|]. reflexivity.
Qed.

(** X20: power loss in the middle of a record leaves the slot being
    written marked on the medium.  When the flag bytes are in step with
    the variables and fewer than [rec_size] ready invocations have been
    made for a record, then on the medium as it is left every slot before
    the one being written has the flag of slot 0; when the slot being
    written is not slot 0 its flag differs from the flag of slot 0,
    which is the flag variable's value; and when it is slot 0 all flags
    are equal. *)
Theorem interrupted_transfer_leaves_slot_marked :
  forall L, valid_logger L -> region_fits L ->
  forall e st s (n : nat),
    consistent L st -> ring_flags L e st ->
    (1 <= n)%nat -> Z.of_nat n < rec_size L ->
  exists rets e' st',
    run_calls L (issue_bytes s n) e st = Some (rets, e', st') /\
    Log_CurRec st' = Log_CurRec st /\
    (forall x, 0 <= x < Log_CurRec st ->
               slot_flag L e' x = slot_flag L e' 0) /\
    if Log_CurRec st =? 0
    then forall x, 0 <= x < recs L -> slot_flag L e' x = slot_flag L e' 0
    else slot_flag L e' (Log_CurRec st) <> slot_flag L e' 0 /\
         slot_flag L e' 0 = Log_CurFlag st.
Proof.
  intros L HL HR e st s n Hc Hflags Hn1 Hn.
  pose proof Hc as ((Hw & _) & _ & Hrest).
  unfold issue_bytes.
  destruct (run_calls_record L HL HR e st s (repeat (true, None) (n - 1)))
    as (e' & st' & Hrun & _ & Hst & Hfin); try assumption.
  - rewrite repeat_length. lia.
  - apply Forall_forall. intros c Hc'. apply repeat_spec in Hc'. subst c.
    reflexivity.
  - rewrite repeat_length in *.
    replace (S (n - 1)) with n in * by lia.
    destruct (Z.eqb_spec (Z.of_nat n) (rec_size L)) as [E|_]; [lia|].
    destruct Hfin as (_ & _ & Hcr & _).
    destruct (partial_record_frame L HL HR _ _ s n e e' Hw Hn Hst)
      as (Hsame & _).
    assert (Hflags' : ring_flags L e' st).
    { intros x Hx. rewrite (Hsame x Hx). apply Hflags. exact Hx. }
    destruct (ring_flags_mark_write_cursor L e' st Hc Hflags')
      as (Hbefore & Hpos & Hzero).
    eexists _, e', st'. split; [exact Hrun|].
    split; [exact Hcr|]. split; [exact Hbefore|].
    destruct (Z.eqb_spec (Log_CurRec st) 0) as [E|E].
    + apply Hzero. exact E.
    + apply Hpos. lia.
Qed.

(** Two of the three bytes of [A] issued on the demo logger. *)
Lemma interrupted_transfer_leaves_slot_marked_witness :
  consistent demo (set_CurFlag boot_state LOG_FLAG_MASK) /\
  ring_flags demo blank (set_CurFlag boot_state LOG_FLAG_MASK) /\
  exists rets e' st',
    run_calls demo (issue_bytes (buffer_of rec_A) 2) blank
              (set_CurFlag boot_state LOG_FLAG_MASK)
      = Some (rets, e', st') /\
    Log_CurRec st' = 0 /\
    forall x, 0 <= x < recs demo -> slot_flag demo e' x = slot_flag demo e' 0.
Proof.
  split; [exact consistent_flag_demo|]. split; [exact ring_flags_demo|].
  destruct (interrupted_transfer_leaves_slot_marked demo valid_demo fits_demo
              blank (set_CurFlag boot_state LOG_FLAG_MASK) (buffer_of rec_A) 2
              consistent_flag_demo ring_flags_demo (le_S 1 1 (le_n 1))
              two_of_three) as (rets & e' & st' & Hrun & Hcr & _ & Hall).
  exists rets, e', st'. split; [exact Hrun|]. split; [exact Hcr|exact Hall].
Defined.

(** ** Below the documented record size *)

(** One round of the copy loop of [Log_ReadRec__]. *)
Lemma ReadRec_loop_step : forall L fuel e dst k a i,
  ReadRec_loop L (S fuel) e dst k a i =
  if u8 (i - 1) =? 0
  then Some ({| ee_cells := ee_cells e; ee_trace := EE_read a :: ee_trace e |},
             poke dst k (u8 (ee_cells e a)), k + 1, uint L (a + 1))
  else ReadRec_loop L fuel
         {| ee_cells := ee_cells e; ee_trace := EE_read a :: ee_trace e |}
         (poke dst k (u8 (ee_cells e a))) (k + 1) (uint L (a + 1))
         (u8 (i - 1)).
Proof. reflexivity. Qed.

(** X19: why [REC_SIZE] must be at least 2.  With [rec_size = 1] the
    byte counter of [Log_ReadRec__] starts at 0 and wraps: every reading
    operation that delivers stores 257 bytes at the destination, the 256
    medium bytes from the slot's address on and a 257th with bit 7
    cleared, where the caller's buffer holds [REC_SIZE] = 1 byte. *)
Theorem record_size_one_overruns :
  forall L, rec_size L = 1 ->
  forall e dst r,
  exists e' dst',
    ReadRec L e dst r = Some (e', dst') /\
    (forall j, 0 <= j < 256 -> dst' j = u8 (ee_cells e (slot_addr L r j))) /\
    dst' 256 = Z.land 127 (u8 (ee_cells e (slot_addr L r 256))).
Proof.
  intros L HS e dst r. unfold ReadRec. rewrite HS.
  change (u8 (1 - 1)) with 0. rewrite uint_add_l.
  change loop_fuel with (S 255).
  rewrite (ReadRec_loop_step L 255 e dst 0 (uint L (start_addr L + r * 1)) 0).
  change (u8 (0 - 1)) with 255. change (255 =? 0) with false. cbv iota.
  rewrite uint_add_l.
  pose proof (ReadRec_loop_rounds L 255 255
                {| ee_cells := ee_cells e;
                   ee_trace := EE_read (uint L (start_addr L + r * 1))
                               :: ee_trace e |}
                (poke dst 0 (u8 (ee_cells e (uint L (start_addr L + r * 1)))))
                (0 + 1) (start_addr L + r * 1 + 1)) as H.
  change (Z.of_nat 255) with 255 in H.
  destruct H as (e1 & dst1 & Hrun & Hcells & Hin & Hout); try lia.
  rewrite Hrun. cbn [ReadEE]. eexists _, _. split; [reflexivity|].
  cbn [ee_cells] in *. rewrite Hcells. unfold slot_addr. rewrite HS. split.
  - intros j Hj. unfold poke at 1.
    destruct (Z.eqb_spec j (0 + 1 + 255)) as [?|_]; [lia|].
    destruct (Z.eq_dec j 0) as [->|Hne].
    + rewrite Hout by lia. unfold poke. rewrite Z.eqb_refl.
      do 3 f_equal. lia.
    + rewrite Hin by lia. do 3 f_equal. lia.
  - unfold poke at 1. change (256 =? 0 + 1 + 255) with true. cbv iota.
    rewrite payload_mask_value. do 4 f_equal. lia.
Qed.

Lemma size_of_tiny : rec_size tiny = 1.
Proof. reflexivity. Defined.

(** On the logger [tiny], which has [rec_size = 1]. *)
Lemma record_size_one_overruns_witness :
  rec_size tiny = 1 /\
  exists e' dst',
    ReadRec tiny blank zeros 0 = Some (e', dst') /\
    (forall j, 0 <= j < 256 ->
               dst' j = u8 (ee_cells blank (slot_addr tiny 0 j))) /\
    dst' 256 = Z.land 127 (u8 (ee_cells blank (slot_addr tiny 0 256))).
Proof.
  split; [exact size_of_tiny|].
  exact (record_size_one_overruns tiny size_of_tiny blank zeros 0).
Defined.
